(** * updstraight: pull every straight.el repository, tag the last seen head,
      list the new commits and restart Emacs when something arrived.

    A shallow embedding of [main.go].  The program is a thin layer over
    go-git, the Go standard library and termenv; this file models

    - the parts of go-git the program calls (reference store, commit objects,
      the pre-order commit walk behind [Repository.Log], the [Since] limit),
    - the program's own functions, one definition per Go function, under the
      Go names,
    - [main] with its goroutines as an interleaving step relation.

    What lies beyond the process (the network behind [Worktree.Pull], the
    terminal behind termenv, the file system behind [filepath.Glob], the
    programs behind [exec.Command]) enters as explicit arguments. *)

From Stdlib Require Import ZArith NArith String Ascii List Lia.
From stdpp Require Import base option list gmap sets strings pretty relations.

#[local] Arguments String.append !_ _ /.

(** ** Go values *)

(** Go [error] values.  The program compares them with [==] against go-git's
    sentinel errors, so each sentinel is a constructor; every other error value
    (I/O, transport, merge, ...) is [ErrOther] with its message. *)
Inductive error : Type :=
| NoErrAlreadyUpToDate
| ErrTagNotFound
| ErrTagExists
| ErrReferenceNotFound
| ErrMaxResolveRecursion
| ErrObjectNotFound
| ErrStop
| ErrIsBareRepository
| ErrRemoteNotFound
| ErrRepositoryNotExists
| ErrTemplate (msg : string)
| ErrOther (msg : string).

#[global] Instance error_eq_dec : EqDecision error.
Proof. solve_decision. Defined.

(** A library call returning [(value, error)] with go-git's convention that the
    value is nil exactly when the error is not. *)
Inductive result (A : Type) : Type :=
| Ok (a : A)
| Err (e : error).
Arguments Ok {A} a.
Arguments Err {A} e.

(** Go's [int] on a 64-bit platform: two's complement wrap-around. *)
Definition int_wrap (z : Z) : Z := ((z + 2 ^ 63) mod 2 ^ 64 - 2 ^ 63)%Z.
Definition int_incr (n : Z) : Z := int_wrap (n + 1).

(** [time.Time] as the instant in nanoseconds since the Unix epoch together
    with the zone offset it is displayed in; [time.Duration] counts
    nanoseconds.  Instants are unbounded: the ends of Go's range, where [Add]
    saturates, are far from any commit time. *)
Record Time : Type := { unix_nano : Z; zone_offset : Z }.
Definition Duration : Type := Z.
Definition Second : Duration := 1000000000%Z.
Definition Time_Add (t : Time) (d : Duration) : Time :=
  {| unix_nano := (unix_nano t + d)%Z; zone_offset := zone_offset t |}.
Definition Time_Before (t u : Time) : bool := (unix_nano t <? unix_nano u)%Z.

(** [strings.ReplaceAll s "\n" new]: every line feed is replaced, left to
    right (the pattern is the single byte 10, so matches cannot overlap). *)
Definition LF : ascii := ascii_of_nat 10.
Definition TAB : ascii := ascii_of_nat 9.

Fixpoint replaceAll_LF (s new : string) : string :=
  match s with
  | EmptyString => EmptyString
  | String a s' =>
      if decide (a = LF) then new +:+ replaceAll_LF s' new
      else String a (replaceAll_LF s' new)
  end.

(** text/template's [slice s i j] on a string: an error when an index is out
    of range. *)
Definition tpl_slice (s : string) (i j : nat) : result string :=
  if decide (i ≤ j ∧ j ≤ String.length s) then Ok (substring i (j - i) s)
  else Err (ErrTemplate "error calling slice: index out of range").

(** [strings.Split(s, sep)] for a separator of one byte: the pieces between
    the separators, empty ones included; an [s] without separator is the one
    piece. *)
Fixpoint Split (s : string) (sep : ascii) : list string :=
  match s with
  | EmptyString => [EmptyString]
  | String a s' =>
      if decide (a = sep) then EmptyString :: Split s' sep
      else
        match Split s' sep with
        | w :: ws => String a w :: ws
        | [] => [String a EmptyString]
        end
  end.

(** [strings.Join(l, sep)] *)
Fixpoint Join (l : list string) (sep : string) : string :=
  match l with
  | [] => ""
  | [w] => w
  | w :: ws => w +:+ sep +:+ Join ws sep
  end.

Definition SPACE : ascii := ascii_of_nat 32.

(** [path.Clean], on the elements between the slashes, with the elements
    kept so far last first.  An empty element and [.] are dropped; [..]
    takes back the element before it, is kept when there is none to take
    back and the path is not rooted, and is dropped at the root. *)
Fixpoint clean_elems (rooted : bool) (elems out : list string) : list string :=
  match elems with
  | [] => out
  | e :: rest =>
      if decide (e = "" ∨ e = ".") then clean_elems rooted rest out
      else if decide (e = "..") then
        match out with
        | top :: out' =>
            if decide (top = "..") then clean_elems rooted rest (".." :: out)
            else clean_elems rooted rest out'
        | [] =>
            if rooted then clean_elems rooted rest []
            else clean_elems rooted rest [".."]
        end
      else clean_elems rooted rest (e :: out)
  end.

Definition SLASH : ascii := ascii_of_nat 47.

(** [path.Clean] *)
Definition path_Clean (p : string) : string :=
  match p with
  | EmptyString => "."
  | String a _ =>
      let rooted := bool_decide (a = SLASH) in
      let out := Join (rev (clean_elems rooted (Split p SLASH) [])) "/" in
      match (if rooted then "/" +:+ out else out) with
      | EmptyString => "."
      | s => s
      end
  end.

(** [path.Join]: the elements from the first non-empty one on, joined by
    slashes and cleaned; the empty string when there is none. *)
Fixpoint path_Join (elem : list string) : string :=
  match elem with
  | [] => ""
  | EmptyString :: rest => path_Join rest
  | _ :: _ => path_Clean (Join elem "/")
  end.

#[global] Arguments path_Clean : simpl never.
#[global] Arguments path_Join : simpl never.

(** ** go-git: hashes, references, commits *)

(** [plumbing.Hash] is a 20-byte array; it is kept as the 160-bit number those
    bytes spell (big endian). *)
Definition Hash : Type := N.
Definition ZeroHash : Hash := 0%N.

Definition hexdigit (d : N) : ascii :=
  match d with
  | 0 => "0" | 1 => "1" | 2 => "2" | 3 => "3" | 4 => "4" | 5 => "5"
  | 6 => "6" | 7 => "7" | 8 => "8" | 9 => "9" | 10 => "a" | 11 => "b"
  | 12 => "c" | 13 => "d" | 14 => "e" | _ => "f"
  end%N%char.

(** The [k] low hex digits of [n], most significant first. *)
Fixpoint hex (k : nat) (n : N) : string :=
  match k with
  | O => EmptyString
  | S k' => String (hexdigit ((n / 16 ^ N.of_nat k') mod 16)%N) (hex k' n)
  end.

(** [Hash.String]: hex encoding of the 20 bytes. *)
Definition Hash_String (h : Hash) : string := hex 40 h.

Inductive ReferenceType : Type :=
| InvalidReference
| HashReference
| SymbolicReference.

#[global] Instance ReferenceType_eq_dec : EqDecision ReferenceType.
Proof. solve_decision. Defined.

(** [plumbing.Reference] *)
Record Reference : Type := {
  ref_t : ReferenceType;
  ref_n : string;
  ref_h : Hash;
  ref_target : string
}.

#[global] Instance Reference_eq_dec : EqDecision Reference.
Proof. solve_decision. Defined.

Definition NewHashReference (n : string) (h : Hash) : Reference :=
  {| ref_t := HashReference; ref_n := n; ref_h := h; ref_target := "" |}.
Definition NewSymbolicReference (n target : string) : Reference :=
  {| ref_t := SymbolicReference; ref_n := n; ref_h := ZeroHash;
     ref_target := target |}.
Definition Reference_Name (r : Reference) : string := ref_n r.
Definition Reference_Hash (r : Reference) : Hash := ref_h r.
Definition Reference_Type (r : Reference) : ReferenceType := ref_t r.
Definition Reference_Target (r : Reference) : string := ref_target r.

(** [object.Signature] *)
Record Signature : Type := {
  sig_Name : string;
  sig_Email : string;
  sig_When : Time
}.
Definition Signature_String (s : Signature) : string :=
  sig_Name s +:+ " <" +:+ sig_Email s +:+ ">".

(** A commit as it sits in the object store, keyed by its hash. *)
Record CommitData : Type := {
  cd_Author : Signature;
  cd_Committer : Signature;
  cd_Message : string;
  cd_ParentHashes : list Hash
}.

(** [object.Commit]: the decoded object together with the hash it was read
    under. *)
Record Commit : Type := {
  c_Hash : Hash;
  c_Author : Signature;
  c_Committer : Signature;
  c_Message : string;
  c_ParentHashes : list Hash
}.

Definition decode (h : Hash) (d : CommitData) : Commit :=
  {| c_Hash := h; c_Author := cd_Author d; c_Committer := cd_Committer d;
     c_Message := cd_Message d; c_ParentHashes := cd_ParentHashes d |}.

(** [config.RemoteConfig] *)
Record RemoteConfig : Type := {
  rc_Name : string;
  rc_URLs : list string
}.

(** ** go-git: the repository *)

(** [git.Repository]: the reference store by full reference name, the commit
    objects by hash, the configured remotes, whether a working tree is
    attached, and the I/O condition of the reference store: the error, if any,
    that reading or writing a given reference name runs into. *)
Record Repository : Type := {
  refs : gmap string Reference;
  objects : gmap Hash CommitData;
  remotes : gmap string RemoteConfig;
  worktree : bool;
  ref_read_err : string → option error;
  ref_write_err : string → option error
}.

Definition set_refs (r : Repository) (rs : gmap string Reference) : Repository :=
  {| refs := rs; objects := objects r; remotes := remotes r;
     worktree := worktree r; ref_read_err := ref_read_err r;
     ref_write_err := ref_write_err r |}.

Definition HEAD : string := "HEAD".
Definition MaxResolveRecursion : nat := 1024.

(** [Storer.Reference] *)
Definition Storer_Reference (r : Repository) (n : string) : result Reference :=
  match ref_read_err r n with
  | Some e => Err e
  | None =>
      match refs r !! n with
      | Some ref => Ok ref
      | None => Err ErrReferenceNotFound
      end
  end.

(** [Storer.SetReference]: stores the reference under its own name, replacing
    what was there. *)
Definition Storer_SetReference (r : Repository) (ref : Reference)
  : option error * Repository :=
  match ref_write_err r (Reference_Name ref) with
  | Some e => (Some e, r)
  | None => (None, set_refs r (<[Reference_Name ref := ref]> (refs r)))
  end.

(** [storer.resolveReference]; [k] is [MaxResolveRecursion + 1 - recursion]. *)
Fixpoint resolveReference (k : nat) (r : Repository) (ref : Reference)
  : result Reference :=
  if decide (Reference_Type ref = SymbolicReference) then
    match k with
    | O => Err ErrMaxResolveRecursion
    | S k' =>
        match Storer_Reference r (Reference_Target ref) with
        | Err e => Err e
        | Ok t => resolveReference k' r t
        end
    end
  else Ok ref.

Definition ResolveReference (r : Repository) (n : string) : result Reference :=
  match Storer_Reference r n with
  | Err e => Err e
  | Ok ref => resolveReference (S MaxResolveRecursion) r ref
  end.

(** [Repository.Head] *)
Definition Repository_Head (r : Repository) : result Reference :=
  ResolveReference r HEAD.

#[global] Arguments ResolveReference : simpl never.
#[global] Arguments Repository_Head : simpl never.

(** [plumbing.NewTagReferenceName] *)
Definition NewTagReferenceName (name : string) : string := "refs/tags/" +:+ name.

(** [Repository.Tag]: the unresolved reference [path.Join("refs", "tags",
    name)], which for a plain tag name is [refs/tags/name] and for a name
    with [.], [..] or spare slashes in it is the cleaned path; a missing
    reference is reported as [ErrTagNotFound], any other error as it is. *)
Definition Repository_Tag (r : Repository) (name : string) : result Reference :=
  match Storer_Reference r (path_Join ["refs"; "tags"; name]) with
  | Ok ref => Ok ref
  | Err ErrReferenceNotFound => Err ErrTagNotFound
  | Err e => Err e
  end.

(** [Repository.CreateTag] without options (a lightweight tag): refuses an
    existing tag, otherwise writes a hash reference to [hash]. *)
Definition Repository_CreateTag (r : Repository) (name : string) (hash : Hash)
  : result Reference * Repository :=
  let rname := NewTagReferenceName name in
  match Storer_Reference r rname with
  | Ok _ => (Err ErrTagExists, r)
  | Err ErrReferenceNotFound =>
      let ref := NewHashReference rname hash in
      match Storer_SetReference r ref with
      | (Some e, r') => (Err e, r')
      | (None, r') => (Ok ref, r')
      end
  | Err e => (Err e, r)
  end.

(** [Repository.Remote] *)
Definition Repository_Remote (r : Repository) (name : string) : result RemoteConfig :=
  match remotes r !! name with
  | Some c => Ok c
  | None => Err ErrRemoteNotFound
  end.

(** [Repository.Worktree]: fails on a bare repository. *)
Definition Repository_Worktree (r : Repository) : result Repository :=
  if worktree r then Ok r else Err ErrIsBareRepository.

(** [Repository.CommitObject] *)
Definition Repository_CommitObject (r : Repository) (h : Hash) : result Commit :=
  match objects r !! h with
  | Some d => Ok (decode h d)
  | None => Err ErrObjectNotFound
  end.

(** ** go-git: walking the history *)

(** A commit iterator, as the finite sequence of commits its successive
    [Next] calls give and the error that ends it ([None] is [io.EOF]). *)
Definition CommitIter : Type := (list Commit * option error)%type.

(** The hashes on top of the stack that were already seen are skipped. *)
Fixpoint skip_seen (seen : gset Hash) (stack : list Hash) : list Hash :=
  match stack with
  | [] => []
  | h :: rest => if decide (h ∈ seen) then skip_seen seen rest else stack
  end.

(** [commitPreIterator.Next], iterated: the stack of parent iterators is one
    list of pending hashes, most recent parents first.  Each round trip skips
    the seen hashes, reads the first unseen one (an error ends the walk),
    marks and yields it and pushes its parents.  [fuel] bounds the number of
    commits yielded; one more than the number of unseen objects is enough
    (lemma [preorder_fuel]). *)
Fixpoint preorder (fuel : nat) (objs : gmap Hash CommitData)
    (stack : list Hash) (seen : gset Hash) : CommitIter :=
  match fuel with
  | O => ([], None)
  | S fuel' =>
      match skip_seen seen stack with
      | [] => ([], None)
      | h :: rest =>
          match objs !! h with
          | None => ([], Some ErrObjectNotFound)
          | Some d =>
              let '(cs, e) :=
                preorder fuel' objs (cd_ParentHashes d ++ rest) ({[h]} ∪ seen) in
              (decode h d :: cs, e)
          end
      end
  end.

(** [object.NewCommitPreorderIter(c, nil, nil)]: the start commit first. *)
Definition NewCommitPreorderIter (r : Repository) (c : Commit) : CommitIter :=
  let '(cs, e) :=
    preorder (S (size (objects r))) (objects r) (c_ParentHashes c) {[c_Hash c]} in
  (c :: cs, e).

(** [object.NewCommitLimitIterFromIter] with [Since] only: commits whose
    committer time is before [since] are passed over. *)
Definition CommitLimitIter (since : Time) (it : CommitIter) : CommitIter :=
  (filter (λ c, Time_Before (sig_When (c_Committer c)) since = false) it.1,
   it.2).

(** [Repository.Log(&git.LogOptions{Since: &since})]: from the head commit, in
    the default (pre-order) order. *)
Definition Repository_Log (r : Repository) (since : Time) : result CommitIter :=
  match Repository_Head r with
  | Err e => Err e
  | Ok head =>
      match Repository_CommitObject r (Reference_Hash head) with
      | Err e => Err e
      | Ok c => Ok (CommitLimitIter since (NewCommitPreorderIter r c))
      end
  end.

(** [CommitIter.ForEach]: the callback runs on each commit in turn; its first
    error stops the iteration and is returned ([storer.ErrStop] as nil),
    otherwise the iterator's own. *)
Fixpoint ForEach {S : Type} (cs : list Commit) (e : option error)
    (cb : Commit → S → option error * S) (s : S) : option error * S :=
  match cs with
  | [] => (e, s)
  | c :: cs' =>
      match cb c s with
      | (Some err, s') =>
          if decide (err = ErrStop) then (None, s') else (Some err, s')
      | (None, s') => ForEach cs' e cb s'
      end
  end.

(** ** The program *)

Definition TagName : string := "Updated.At".

(** The operating system as [ListEmacsStraightRepos] sees it: the outcome of
    [os.UserHomeDir], [filepath.Join] and the outcome of [filepath.Glob] on a
    pattern. *)
Record OS : Type := {
  UserHomeDir : result string;
  filepath_Join : list string → string;
  filepath_Glob : string → list string * option error
}.

(** [ListEmacsStraightRepos] *)
Definition ListEmacsStraightRepos (os : OS) : list string * option error :=
  match UserHomeDir os with
  | Err err => ([], Some err)
  | Ok home =>
      filepath_Glob os (filepath_Join os [home; ".emacs.d/straight/repos"; "*"])
  end.

(** [CreateOrModifyGitTag].  The result pair is Go's pair of a reference
    pointer and an error: [None] is nil.  The [switch] has no default: an
    error of [r.Tag] other than [git.ErrTagNotFound] falls through to
    [return tag, nil] with the nil [tag] that [r.Tag] returned. *)
Definition CreateOrModifyGitTag (r : Repository) (t : string) (ref : Reference)
  : (option Reference * option error) * Repository :=
  match Repository_Tag r t with
  | Ok tag =>
      let tag := NewHashReference (Reference_Name tag) (Reference_Hash ref) in
      match Storer_SetReference r tag with
      | (Some err, r') => ((None, Some err), r')
      | (None, r') => ((Some tag, None), r')
      end
  | Err ErrTagNotFound =>
      match Repository_CreateTag r TagName (Reference_Hash ref) with
      | (Err err, r') => ((None, Some err), r')
      | (Ok tag, r') => ((Some tag, None), r')
      end
  | Err _ => ((None, None), r)
  end.

(** The effect of a [w.Pull(&git.PullOptions{})] that returns: the error it
    returns ([None] is nil) and the repository it leaves behind.  It depends
    on the remote and the network, so it is an argument.  A pull that never
    returns (there is no timeout) or panics inside go-git is not among these
    effects: what is proved about a run is about the runs whose pulls
    return. *)
Definition PullEffect : Type := Repository → option error * Repository.

(** [PullGitChanges] *)
Definition PullGitChanges (pull : PullEffect) (r : Repository)
  : (bool * option error) * Repository :=
  match Repository_Worktree r with
  | Err err => ((false, Some err), r)
  | Ok w =>
      let '(err, r') := pull w in
      match err with
      | Some NoErrAlreadyUpToDate => ((false, None), r')
      | _ => ((true, None), r')
      end
  end.

(** What the rendering depends on outside the program: termenv's styling for
    the terminal at hand ([Color code s] is the template function and, written
    out, [output.String(s).Foreground(output.Color(code))]), and Go's
    [Time.Format "2006-01-02"]. *)
Record Output : Type := {
  Color : string → string → string;
  Foreground_ANSIYellow : string → string;
  Faint : string → string;
  Format_2006_01_02 : Time → string
}.

Definition s_TAB : string := String TAB EmptyString.
Definition s_LF : string := String LF EmptyString.
Definition indent : string := String LF (String TAB (String TAB EmptyString)).

(** [tpl.Execute(&buf, c)] for the template [commitBrief]: the text written
    to the buffer and the error.  The actions run in order and write as they
    go, so an error leaves the text before it in the buffer. *)
Definition commitBrief_Execute (o : Output) (c : Commit) : string * option error :=
  let line1 :=
    s_TAB +:+ Color o "140" (Format_2006_01_02 o (sig_When (c_Committer c)))
          +:+ " " in
  match tpl_slice (Hash_String (c_Hash c)) 0 6 with
  | Err e => (line1, Some e)
  | Ok short =>
      (line1 +:+ Color o "104" short +:+ " "
             +:+ Color o "111" (Signature_String (c_Author c)) +:+ s_LF
             +:+ s_TAB +:+ s_TAB
             +:+ Color o "108" (replaceAll_LF (c_Message c) indent) +:+ s_LF,
       None)
  end.

(** The closure [f] of [GetGitLog], on the pair of [*n] and [buf]. *)
Definition GetGitLog_f (o : Output) (c : Commit) (s : Z * string)
  : option error * (Z * string) :=
  let n := int_incr s.1 in
  let '(text, err) := commitBrief_Execute o c in
  (err, (n, s.2 +:+ text)).

(** [GetGitLog]: the returned pair, and [*n] afterwards.  [tpl.Parse] is not
    a step of its own: [commitBrief] is a constant that parses. *)
Definition GetGitLog (o : Output) (r : Repository) (ref : Reference) (n : Z)
  : (string * option error) * Z :=
  match Repository_CommitObject r (Reference_Hash ref) with
  | Err err => (("", Some err), n)
  | Ok c =>
      let t := Time_Add (sig_When (c_Committer c)) Second in
      match Repository_Log r t with
      | Err err => (("", Some err), n)
      | Ok cIter =>
          let '(err, (n', buf)) := ForEach cIter.1 cIter.2 (GetGitLog_f o) (n, "") in
          ((buf, err), n')
      end
  end.

(** The process: the repositories on disk by path, the global
    [restartEmacsIsNeeded] and what was written to standard output. *)
Record Process : Type := {
  disk : gmap string Repository;
  restartEmacsIsNeeded : bool;
  stdout : list string
}.

Definition set_repo (σ : Process) (p : string) (r : Repository) : Process :=
  {| disk := <[p := r]> (disk σ);
     restartEmacsIsNeeded := restartEmacsIsNeeded σ;
     stdout := stdout σ |}.

(** [git.PlainOpen] *)
Definition PlainOpen (σ : Process) (p : string) : result Repository :=
  match disk σ !! p with
  | Some r => Ok r
  | None => Err ErrRepositoryNotExists
  end.

(** How the body of [UpdateEmacsStraightRepo] ends: [log.Fatal] (the process
    exits with status 1 on the spot), a run-time panic, or a return; the last
    two with the local [n] at that point ([n] is 0 until [GetGitLog] has
    counted). *)
Inductive Exit : Type :=
| Fatal (err : error)
| Panicked (msg : string) (n : Z)
| Returned (n : Z).

Definition exit_count (e : Exit) : option Z :=
  match e with
  | Fatal _ => None
  | Panicked _ n | Returned n => Some n
  end.

(** [fmt.Println] of the two styled strings, [fmt.Println] of the path and
    [fmt.Print(l)]. *)
Definition report (o : Output) (url p : string) (n : Z) (l : string) : list string :=
  [ Foreground_ANSIYellow o ("Fetched from" +:+ " " +:+ url) +:+ " "
      +:+ Color o "208" (pretty n +:+ " " +:+ "new commits") +:+ s_LF;
    Faint o ("local path:" +:+ " " +:+ p) +:+ s_LF;
    l ].

(** [UpdateEmacsStraightRepo].  Every change go-git makes is on disk when it
    is made, so each exit carries the repository as it stands.  [tag] is the
    pointer [CreateOrModifyGitTag] returned: when it is nil, [ref.Hash()] in
    [GetGitLog] dereferences nil. *)
Definition UpdateEmacsStraightRepo (o : Output) (pull : PullEffect)
    (p : string) (σ : Process) : Exit * Process :=
  match PlainOpen σ p with
  | Err err => (Fatal err, σ)
  | Ok r =>
  match Repository_Head r with
  | Err err => (Fatal err, σ)
  | Ok head =>
  match Repository_Remote r "origin" with
  | Err err => (Fatal err, σ)
  | Ok rr =>
  match CreateOrModifyGitTag r TagName head with
  | ((_, Some err), r1) => (Fatal err, set_repo σ p r1)
  | ((tag, None), r1) =>
  match PullGitChanges pull r1 with
  | ((_, Some err), r2) => (Fatal err, set_repo σ p r2)
  | ((_, None), r2) =>
  match tag with
  | None =>
      (Panicked "invalid memory address or nil pointer dereference" 0,
       set_repo σ p r2)
  | Some tag =>
      let '((l, err), n) := GetGitLog o r2 tag 0 in
      if (n >? 0)%Z then
        match rc_URLs rr with
        | [] => (Panicked "index out of range [0] with length 0" n,
                 {| disk := <[p := r2]> (disk σ);
                    restartEmacsIsNeeded := true;
                    stdout := stdout σ |})
        | url :: _ =>
            (Returned n,
             {| disk := <[p := r2]> (disk σ);
                restartEmacsIsNeeded := true;
                stdout := stdout σ ++ report o url p n l |})
        end
      else (Returned n, set_repo σ p r2)
  end end end end end end.

(** ** [main] and its goroutines *)

(** A goroutine [go UpdateEmacsStraightRepo(v, wg)]: not yet run; out of the
    body, by return or by panic, with the deferred [wg.Done()] pending; or
    past [wg.Done()]. *)
Inductive Goroutine : Type :=
| Running (p : string)
| Deferred (e : Exit)
| Finished (e : Exit).

(** Where [main] stands: in the [range repos] loop with the paths still to
    launch, past [wg.Wait()], or returned. *)
Inductive MainPC : Type :=
| Spawning (rest : list string)
| AfterWait
| Exited.

Record State : Type := {
  proc : Process;
  wg : nat;
  goroutines : list Goroutine;
  pc : MainPC;
  restarts : nat;
  halted : option Exit
}.

(** After [ListEmacsStraightRepos] returned [repos]: globals at their zero
    values, nothing launched. *)
Definition init (d : gmap string Repository) (repos : list string) : State :=
  {| proc := {| disk := d; restartEmacsIsNeeded := false; stdout := [] |};
     wg := 0; goroutines := []; pc := Spawning repos; restarts := 0;
     halted := None |}.

Inductive Label : Type :=
| L_go (p : string)
| L_body (i : nat)
| L_done (i : nat)
| L_crash (i : nat)
| L_wait
| L_read_flag (b : bool).

(** One scheduling step.  A goroutine's body touches its own repository (the
    paths of [repos] are distinct) and the two globals, and nothing reads the
    flag before the barrier, so the body runs as one step.  [log.Fatal] ends
    the process there and then.  A return and a panic both leave the body
    with [wg.Done()] deferred; that is a step of its own, and after it a
    panicking goroutine crashes the process, at once or later. *)
Inductive main_step (o : Output) (pulls : string → PullEffect)
  : State → Label → State → Prop :=
| step_go s p rest :
    halted s = None →
    pc s = Spawning (p :: rest) →
    main_step o pulls s (L_go p)
      {| proc := proc s; wg := S (wg s);
         goroutines := goroutines s ++ [Running p]; pc := Spawning rest;
         restarts := restarts s; halted := None |}
| step_body_fatal s i p err σ' :
    halted s = None →
    goroutines s !! i = Some (Running p) →
    UpdateEmacsStraightRepo o (pulls p) p (proc s) = (Fatal err, σ') →
    main_step o pulls s (L_body i)
      {| proc := σ'; wg := wg s; goroutines := goroutines s; pc := pc s;
         restarts := restarts s; halted := Some (Fatal err) |}
| step_body_leave s i p e σ' :
    halted s = None →
    goroutines s !! i = Some (Running p) →
    UpdateEmacsStraightRepo o (pulls p) p (proc s) = (e, σ') →
    (∀ err, e ≠ Fatal err) →
    main_step o pulls s (L_body i)
      {| proc := σ'; wg := wg s;
         goroutines := <[i := Deferred e]> (goroutines s); pc := pc s;
         restarts := restarts s; halted := None |}
| step_done s i e :
    halted s = None →
    goroutines s !! i = Some (Deferred e) →
    main_step o pulls s (L_done i)
      {| proc := proc s; wg := pred (wg s);
         goroutines := <[i := Finished e]> (goroutines s); pc := pc s;
         restarts := restarts s; halted := None |}
| step_crash s i msg n :
    halted s = None →
    goroutines s !! i = Some (Finished (Panicked msg n)) →
    main_step o pulls s (L_crash i)
      {| proc := proc s; wg := wg s; goroutines := goroutines s; pc := pc s;
         restarts := restarts s; halted := Some (Panicked msg n) |}
| step_wait s :
    halted s = None →
    pc s = Spawning [] →
    wg s = 0 →
    main_step o pulls s L_wait
      {| proc := proc s; wg := wg s; goroutines := goroutines s;
         pc := AfterWait; restarts := restarts s; halted := None |}
| step_read_flag s :
    halted s = None →
    pc s = AfterWait →
    main_step o pulls s (L_read_flag (restartEmacsIsNeeded (proc s)))
      {| proc := proc s; wg := wg s; goroutines := goroutines s; pc := Exited;
         restarts :=
           if restartEmacsIsNeeded (proc s) then S (restarts s) else restarts s;
         halted := None |}.

(** The states a run can be in. *)
Inductive main_reachable (o : Output) (pulls : string → PullEffect)
    (d : gmap string Repository) (repos : list string) : State → Prop :=
| main_reachable_init : main_reachable o pulls d repos (init d repos)
| main_reachable_step s l s' :
    main_reachable o pulls d repos s →
    main_step o pulls s l s' →
    main_reachable o pulls d repos s'.

(** The count a goroutine observed, once it is out of the body. *)
Definition observed (g : Goroutine) : option Z :=
  match g with
  | Running _ => None
  | Deferred e | Finished e => exit_count e
  end.

Definition is_Finished (g : Goroutine) : Prop :=
  match g with Finished _ => True | _ => False end.

(** The step a label takes from a state, when it is enabled there (the
    executable reading of [main_step]), and a whole schedule. *)
Definition exec (o : Output) (pulls : string → PullEffect) (s : State) (l : Label)
  : option State :=
  match halted s with
  | Some _ => None
  | None =>
      match l with
      | L_go p =>
          match pc s with
          | Spawning (p' :: rest) =>
              if decide (p = p') then
                Some {| proc := proc s; wg := S (wg s);
                        goroutines := goroutines s ++ [Running p];
                        pc := Spawning rest; restarts := restarts s;
                        halted := None |}
              else None
          | _ => None
          end
      | L_body i =>
          match goroutines s !! i with
          | Some (Running p) =>
              match UpdateEmacsStraightRepo o (pulls p) p (proc s) with
              | (Fatal err, σ') =>
                  Some {| proc := σ'; wg := wg s; goroutines := goroutines s;
                          pc := pc s; restarts := restarts s;
                          halted := Some (Fatal err) |}
              | (e, σ') =>
                  Some {| proc := σ'; wg := wg s;
                          goroutines := <[i := Deferred e]> (goroutines s);
                          pc := pc s; restarts := restarts s; halted := None |}
              end
          | _ => None
          end
      | L_done i =>
          match goroutines s !! i with
          | Some (Deferred e) =>
              Some {| proc := proc s; wg := pred (wg s);
                      goroutines := <[i := Finished e]> (goroutines s);
                      pc := pc s; restarts := restarts s; halted := None |}
          | _ => None
          end
      | L_crash i =>
          match goroutines s !! i with
          | Some (Finished (Panicked msg n)) =>
              Some {| proc := proc s; wg := wg s; goroutines := goroutines s;
                      pc := pc s; restarts := restarts s;
                      halted := Some (Panicked msg n) |}
          | _ => None
          end
      | L_wait =>
          match pc s with
          | Spawning [] =>
              if decide (wg s = 0) then
                Some {| proc := proc s; wg := wg s; goroutines := goroutines s;
                        pc := AfterWait; restarts := restarts s; halted := None |}
              else None
          | _ => None
          end
      | L_read_flag b =>
          match pc s with
          | AfterWait =>
              if decide (b = restartEmacsIsNeeded (proc s)) then
                Some {| proc := proc s; wg := wg s; goroutines := goroutines s;
                        pc := Exited;
                        restarts := if restartEmacsIsNeeded (proc s)
                                    then S (restarts s) else restarts s;
                        halted := None |}
              else None
          | _ => None
          end
      end
  end.

Fixpoint run (o : Output) (pulls : string → PullEffect) (ls : list Label)
    (s : State) : option State :=
  match ls with
  | [] => Some s
  | l :: ls' =>
      match exec o pulls s l with
      | Some s' => run o pulls ls' s'
      | None => None
      end
  end.

(** ** [restartEmacs] and the commands it runs *)

(** One [Write] call that a running command makes on [cmd.Stdout] or
    [cmd.Stderr]: the stream, the bytes, and the error, if any, that
    [os.Stdout.WriteString] runs into. *)
Record Chunk : Type := {
  on_stderr : bool;
  chunk_bytes : string;
  chunk_werr : option error
}.

(** The effect of [cmd.Run()] for an argument vector, after the commands
    started before it: the [Write] calls it makes, in order, and the error it
    returns.  It depends on the programs installed, so it is an argument. *)
Definition CommandEffect : Type :=
  list (list string) → list string → list Chunk * option error.

Record ColoredWriter : Type := { cw_c : string }.

(** [ColoredWriter.Write], on what standard output holds: the number of
    bytes reported and the error, and standard output afterwards.  [werr] is
    the outcome of [os.Stdout.WriteString]; a write that fails is taken to
    leave standard output as it was. *)
Definition ColoredWriter_Write (o : Output) (c : ColoredWriter) (p : string)
    (werr : option error) (out : list string)
  : (nat * option error) * list string :=
  let s := Color o (cw_c c) p in
  ((String.length p, werr),
   match werr with
   | None => out ++ [s]
   | Some _ => out
   end).

(** How [runCommand] ends: a run-time panic (the arguments [s[0]] and
    [s[1:]] on an empty slice) or a return with [err]. *)
Inductive CmdExit : Type :=
| Cmd_panic (msg : string)
| Cmd_return (err : option error).

(** [runCommand]; [reset] is what [output.Reset()] writes. *)
Definition runCommand (o : Output) (reset : string) (cmd_Run : CommandEffect)
    (before : list (list string)) (s : list string) (out : list string)
  : CmdExit * list string :=
  match s with
  | [] => (Cmd_panic "slice bounds out of range [1:0]", out)
  | _ :: _ =>
      let '(chunks, err) := cmd_Run before s in
      let out' :=
        foldl (λ out ch,
                 (ColoredWriter_Write o
                    {| cw_c := if on_stderr ch then "175" else "147" |}
                    (chunk_bytes ch) (chunk_werr ch) out).2)
              out chunks in
      (Cmd_return err, out' ++ [reset])
  end.

Definition commands : list string :=
  ["emacsclient -e (kill-emacs)"; "emacs -nw --daemon"].

(** How [restartEmacs] ends. *)
Inductive RestartExit : Type :=
| Restart_fatal (err : error)
| Restart_panic (msg : string)
| Restart_done.

(** The loop of [restartEmacs] over the commands still to run, with the
    argument vectors started so far and standard output. *)
Fixpoint restartEmacs_range (o : Output) (reset : string) (cmd_Run : CommandEffect)
    (cmds : list string) (started : list (list string)) (out : list string)
  : RestartExit * (list (list string) * list string) :=
  match cmds with
  | [] => (Restart_done, (started, out))
  | v :: rest =>
      let s := Split v SPACE in
      match runCommand o reset cmd_Run started s out with
      | (Cmd_panic msg, out') => (Restart_panic msg, (started, out'))
      | (Cmd_return (Some err), out') => (Restart_fatal err, (started ++ [s], out'))
      | (Cmd_return None, out') =>
          restartEmacs_range o reset cmd_Run rest (started ++ [s]) out'
      end
  end.

(** [restartEmacs] *)
Definition restartEmacs (o : Output) (reset : string) (cmd_Run : CommandEffect)
    (out : list string) : RestartExit * (list (list string) * list string) :=
  restartEmacs_range o reset cmd_Run commands [] out.

(** ** A measure of what is left of a run *)

Definition goroutine_weight (g : Goroutine) : nat :=
  match g with
  | Running _ => 2
  | Deferred _ => 1
  | Finished _ => 0
  end.

Definition pc_weight (c : MainPC) : nat :=
  match c with
  | Spawning rest => 2 + 3 * length rest
  | AfterWait => 1
  | Exited => 0
  end.

(** The number of steps a state can still take, at most. *)
Definition steps_left (s : State) : nat :=
  match halted s with
  | Some _ => 0
  | None => 1 + pc_weight (pc s) + sum_list_with goroutine_weight (goroutines s)
  end.

(** Goroutine [i] works on the [i]-th path, the paths not yet launched are
    the rest of [repos], and a repository outside [repos] is as it was. *)
Definition launch_inv (d : gmap string Repository) (repos : list string)
    (s : State) : Prop :=
  (∀ i p, goroutines s !! i = Some (Running p) → repos !! i = Some p) ∧
  (∀ rest, pc s = Spawning rest → rest = drop (length (goroutines s)) repos) ∧
  (length (goroutines s) ≤ length repos) ∧
  (∀ q, q ∉ repos → disk (proc s) !! q = d !! q).

(** ** The vocabulary of the properties *)

(** Every reference is stored under its own name, as [SetReference] does. *)
Definition refs_named (r : Repository) : Prop :=
  ∀ k ref, refs r !! k = Some ref → Reference_Name ref = k.

(** [h'] is a parent of the commit stored under [h]. *)
Definition parent_of (objs : gmap Hash CommitData) (h h' : Hash) : Prop :=
  ∃ d, objs !! h = Some d ∧ h' ∈ cd_ParentHashes d.

(** [h'] is [h] or one of its ancestors. *)
Definition reachable (objs : gmap Hash CommitData) : Hash → Hash → Prop :=
  rtc (parent_of objs).

(** The history below [h] is all there: every commit reachable from it is in
    the object store. *)
Definition history_complete (objs : gmap Hash CommitData) (h : Hash) : Prop :=
  ∀ h', reachable objs h h' → is_Some (objs !! h').

(** [c] is the commit the store holds under [c]'s hash. *)
Definition stored (objs : gmap Hash CommitData) (c : Commit) : Prop :=
  ∃ d, objs !! c_Hash c = Some d ∧ c = decode (c_Hash c) d.

Definition hashes (cs : list Commit) : list Hash := c_Hash <$> cs.

(** Every parent named in the store is in the store. *)
Definition store_closed (objs : gmap Hash CommitData) : Prop :=
  map_Forall (λ _ d, Forall (λ p, is_Some (objs !! p)) (cd_ParentHashes d)) objs.

(** The text [GetGitLog] gathers for a list of commits. *)
Definition render (o : Output) (cs : list Commit) : string :=
  foldr (λ c acc, (commitBrief_Execute o c).1 +:+ acc) "" cs.

(** Every line feed of [s] is followed by two tabs. *)
Definition LF_indented (s : string) : Prop :=
  ∀ i, String.get i s = Some LF →
       String.get (S i) s = Some TAB ∧ String.get (S (S i)) s = Some TAB.

(** The inverse of the re-indentation: the two tabs after a line feed go. *)
Fixpoint unindent (s : string) : string :=
  match s with
  | EmptyString => EmptyString
  | String a s' =>
      if decide (a = LF) then
        match s' with
        | String b (String c s'') =>
            if decide (b = TAB ∧ c = TAB) then String a (unindent s'')
            else String a (unindent s')
        | _ => String a (unindent s')
        end
      else String a (unindent s')
  end.

Definition is_hex (a : ascii) : bool :=
  bool_decide (a ∈ list_ascii_of_string "0123456789abcdef").

(** Reading hex digits back: the number a string of hex digits spells, most
    significant digit first (what [plumbing.NewHash] does with a hash
    string). *)
Definition hexvalue (a : ascii) : option N :=
  let code := N_of_ascii a in
  if decide (48 ≤ code ≤ 57)%N then Some (code - 48)%N
  else if decide (97 ≤ code ≤ 102)%N then Some (code - 87)%N
  else None.

Fixpoint parse_hex (s : string) (acc : N) : option N :=
  match s with
  | EmptyString => Some acc
  | String a s' =>
      match hexvalue a with
      | Some d => parse_hex s' (16 * acc + d)%N
      | None => None
      end
  end.

(** The repository [r] with the reference [k] set to a hash reference to
    [h]: what a successful [CreateOrModifyGitTag] leaves. *)
Definition moved (r : Repository) (k : string) (h : Hash) : Repository :=
  set_refs r (<[k := NewHashReference k h]> (refs r)).

(** The marker's full reference name. *)
Definition marker_name : string := NewTagReferenceName TagName.

(** The marker reference of a repository. *)
Definition marker (r : Repository) : option Reference := refs r !! marker_name.

(** No commit below the head carries a committer time one second or more
    past the head commit's. *)
Definition head_is_latest (r : Repository) : Prop :=
  ∀ head m c,
    Repository_Head r = Ok head →
    Repository_CommitObject r (Reference_Hash head) = Ok m →
    stored (objects r) c →
    reachable (objects r) (Reference_Hash head) (c_Hash c) →
    (unix_nano (sig_When (c_Committer c))
       < unix_nano (sig_When (c_Committer m)) + 1000000000)%Z.

(** A pull that only fast-forwards and keeps off the marker: objects stay,
    the head afterwards, stored if the old one was, has the old head among
    its ancestors, and the marker reference is as it was.  The first two
    go-git's pull sees to (it adds objects and refuses what is not a
    fast-forward).  The last it does not: its fetch follows tags, and an
    origin that carries a tag [Updated.At] of its own overwrites the
    marker.  So this is a condition on the pulls, stated where it is
    needed. *)
Definition pull_fast_forward (pull : PullEffect) : Prop :=
  ∀ r head,
    Repository_Head r = Ok head →
    objects r ⊆ objects (pull r).2 ∧
    marker (pull r).2 = marker r ∧
    ∃ head',
      Repository_Head (pull r).2 = Ok head' ∧
      (is_Some (objects r !! Reference_Hash head) →
       is_Some (objects (pull r).2 !! Reference_Hash head')) ∧
      reachable (objects (pull r).2) (Reference_Hash head') (Reference_Hash head).

(** The head's commit is in the store. *)
Definition head_stored (r : Repository) : Prop :=
  ∀ head, Repository_Head r = Ok head →
          is_Some (objects r !! Reference_Hash head).

(** The marker, if there is one, is stored under its name, points at a stored
    commit and is the head or an ancestor of it. *)
Definition marker_ok (r : Repository) : Prop :=
  ∀ tag, marker r = Some tag →
    Reference_Name tag = marker_name ∧
    is_Some (objects r !! Reference_Hash tag) ∧
    ∀ head, Repository_Head r = Ok head →
            reachable (objects r) (Reference_Hash head) (Reference_Hash tag).

Definition repo_ok (r : Repository) : Prop := head_stored r ∧ marker_ok r.

(** The worker run once per pull of [pulls], one run after the other, on the
    repository at [p]. *)
Fixpoint sync_runs (o : Output) (pulls : list PullEffect) (p : string)
    (σ : Process) : Process :=
  match pulls with
  | [] => σ
  | pull :: rest => sync_runs o rest p (UpdateEmacsStraightRepo o pull p σ).2
  end.

(** From [r] to [r'] no object is lost and the marker, if [r] has one, is
    still there and has the old one among its ancestors (or is the same). *)
Definition marker_advances (r r' : Repository) : Prop :=
  objects r ⊆ objects r' ∧
  ∀ tag, marker r = Some tag →
    ∃ tag', marker r' = Some tag' ∧
            reachable (objects r') (Reference_Hash tag') (Reference_Hash tag).

(** Goroutines whose [wg.Done()] is still to come. *)
Definition pending_one (g : Goroutine) : nat :=
  match g with Finished _ => 0 | _ => 1 end.

Fixpoint pending (gs : list Goroutine) : nat :=
  match gs with
  | [] => 0
  | g :: gs' => pending_one g + pending gs'
  end.

(** Some goroutine observed a positive count. *)
Definition positive_count (c : option Z) : bool :=
  match c with
  | Some n => (0 <? n)%Z
  | None => false
  end.

Definition positive (g : Goroutine) : bool := positive_count (observed g).

Definition any_positive (gs : list Goroutine) : bool := existsb positive gs.

(** What holds of every state of a run over [repos]. *)
Definition main_inv (repos : list string) (s : State) : Prop :=
  wg s = pending (goroutines s) ∧
  restartEmacsIsNeeded (proc s) = any_positive (goroutines s) ∧
  match pc s with
  | Spawning rest =>
      restarts s = 0 ∧ length (goroutines s) + length rest = length repos
  | AfterWait =>
      restarts s = 0 ∧
      Forall is_Finished (goroutines s) ∧
      length (goroutines s) = length repos
  | Exited =>
      Forall is_Finished (goroutines s) ∧
      length (goroutines s) = length repos ∧
      restarts s = (if restartEmacsIsNeeded (proc s) then 1 else 0)
  end.

(** ** Concrete inputs for the examples *)

Definition no_err : string → option error := λ _, None.

Definition sig_at (who : string) (secs : Z) : Signature :=
  {| sig_Name := who; sig_Email := who +:+ "@example.org";
     sig_When := {| unix_nano := (secs * 1000000000)%Z; zone_offset := 0 |} |}.

Definition commit_at (secs : Z) (msg : string) (parents : list Hash) : CommitData :=
  {| cd_Author := sig_at "ann" secs; cd_Committer := sig_at "ann" secs;
     cd_Message := msg; cd_ParentHashes := parents |}.

Definition origin : RemoteConfig :=
  {| rc_Name := "origin"; rc_URLs := ["https://example.org/pkg.git"] |}.

(** A clone on branch [main] at commit [h], with the given objects. *)
Definition clone (h : Hash) (objs : gmap Hash CommitData) : Repository :=
  {| refs := <[HEAD := NewSymbolicReference HEAD "refs/heads/main"]>
               {[ "refs/heads/main" := NewHashReference "refs/heads/main" h ]};
     objects := objs;
     remotes := {[ "origin" := origin ]};
     worktree := true;
     ref_read_err := no_err;
     ref_write_err := no_err |}.

Definition bare (r : Repository) : Repository :=
  {| refs := refs r; objects := objects r; remotes := remotes r;
     worktree := false; ref_read_err := ref_read_err r;
     ref_write_err := ref_write_err r |}.

(** The same repository with the reference [n] unreadable. *)
Definition unreadable (n : string) (e : error) (r : Repository) : Repository :=
  {| refs := refs r; objects := objects r; remotes := remotes r;
     worktree := worktree r;
     ref_read_err := λ k, if decide (k = n) then Some e else ref_read_err r k;
     ref_write_err := ref_write_err r |}.

Definition pull_up_to_date : PullEffect := λ r, (Some NoErrAlreadyUpToDate, r).
Definition pull_fails : PullEffect := λ r, (Some (ErrOther "connection refused"), r).

(** A terminal without colours, and a fixed date text. *)
Definition plain : Output :=
  {| Color := λ _ s, s; Foreground_ANSIYellow := λ s, s; Faint := λ s, s;
     Format_2006_01_02 := λ _, "1970-01-01" |}.

Definition pkg_path : string := "/home/ann/.emacs.d/straight/repos/pkg".

Definition history0 : gmap Hash CommitData := {[ 1%N := commit_at 100 "first" [] ]}.

Definition repo0 : Repository := clone 1%N history0.

Definition history1 : gmap Hash CommitData :=
  <[ 2%N := commit_at 200 "second" [1%N] ]> {[ 1%N := commit_at 100 "first" [] ]}.

Definition repo1 : Repository := clone 2%N history1.

Definition repo1_unreadable_tag : Repository :=
  unreadable "refs/tags/Updated.At" (ErrOther "malformed packed-ref") repo1.

(** [repo1] with the marker already at the first commit. *)
Definition repo1_tagged : Repository :=
  set_refs repo1
    (<[ "refs/tags/Updated.At" := NewHashReference "refs/tags/Updated.At" 1%N ]>
       (refs repo1)).

(** A pull that fast-forwards [main] to commit 3, whose second parent 9 did
    not arrive. *)
Definition history3 : gmap Hash CommitData :=
  <[ 3%N := commit_at 300 "third" [2%N; 9%N] ]> history1.

Definition pull_incomplete : PullEffect := λ r,
  (None,
   {| refs := <[ "refs/heads/main" := NewHashReference "refs/heads/main" 3%N ]> (refs r);
      objects := history3; remotes := remotes r; worktree := worktree r;
      ref_read_err := ref_read_err r; ref_write_err := ref_write_err r |}).

(** A pull that fast-forwards [main] to commit 2 of [history1]. *)
Definition pull_second : PullEffect := λ r,
  (None,
   {| refs := <[ "refs/heads/main" := NewHashReference "refs/heads/main" 2%N ]> (refs r);
      objects := history1; remotes := remotes r; worktree := worktree r;
      ref_read_err := ref_read_err r; ref_write_err := ref_write_err r |}).

Definition process0 : Process :=
  {| disk := {[ pkg_path := repo0 ]};
     restartEmacsIsNeeded := false; stdout := [] |}.

(** [repo0] after the tag is created and [pull_incomplete] went through. *)
Definition repo0_pulled : Repository :=
  (pull_incomplete
     (CreateOrModifyGitTag repo0 TagName (NewHashReference "refs/heads/main" 1%N)).2).2.

Definition process_unreadable : Process :=
  {| disk := {[ pkg_path := unreadable "refs/tags/Updated.At"
                              (ErrOther "malformed packed-ref") repo0 ]};
     restartEmacsIsNeeded := false; stdout := [] |}.

(** A history whose head was committed before its parent (a skewed clock):
    commit 2 at second 100 on top of commit 1 at second 200. *)
Definition history_skew : gmap Hash CommitData :=
  <[ 2%N := commit_at 100 "second" [1%N] ]> {[ 1%N := commit_at 200 "first" [] ]}.

Definition process_skew : Process :=
  {| disk := {[ pkg_path := clone 2%N history_skew ]};
     restartEmacsIsNeeded := false; stdout := [] |}.

(** A machine with one package, and one whose home directory is unknown. *)
Definition os1 : OS :=
  {| UserHomeDir := Ok "/home/ann";
     filepath_Join := λ l, foldr (λ a b, if decide (b = "") then a else a +:+ "/" +:+ b) "" l;
     filepath_Glob := λ pat,
       if decide (pat = "/home/ann/.emacs.d/straight/repos/*")
       then (["/home/ann/.emacs.d/straight/repos/pkg"], None) else ([], None) |}.

Definition os_no_home : OS :=
  {| UserHomeDir := Err (ErrOther "$HOME is not defined");
     filepath_Join := filepath_Join os1; filepath_Glob := filepath_Glob os1 |}.

(** One goroutine's run from launch to [main]'s return, on [process0]. *)
Definition pulls1 : string → PullEffect := λ _, pull_incomplete.

Definition schedule1 : list Label :=
  [L_go pkg_path; L_body 0; L_done 0; L_wait; L_read_flag true].

Definition state1 : State :=
  default (init (disk process0) [pkg_path])
          (run plain pulls1 schedule1 (init (disk process0) [pkg_path])).

(** A pull as go-git makes it, for a remote whose [main] is at commit 2 of
    [history1]: a clone on [main] at commit 1 that lacks commit 2 is
    fast-forwarded; any other repository is reported up to date. *)
Definition pull_ff : PullEffect := λ r,
  match Repository_Head r with
  | Ok head =>
      if decide (Reference_Hash head = 1%N ∧ objects r !! 2%N = None ∧
                 refs r !! HEAD = Some (NewSymbolicReference HEAD "refs/heads/main") ∧
                 ref_read_err r "refs/heads/main" = None)
      then
        (None,
         {| refs := <[ "refs/heads/main" := NewHashReference "refs/heads/main" 2%N ]>
                      (refs r);
            objects := objects r ∪ history1; remotes := remotes r;
            worktree := worktree r;
            ref_read_err := ref_read_err r; ref_write_err := ref_write_err r |})
      else (Some NoErrAlreadyUpToDate, r)
  | Err e => (Some e, r)
  end.

(** A history whose two commits were made in the same second, and a clone at
    the second one with the marker on the first. *)
Definition history_same_second : gmap Hash CommitData :=
  <[ 2%N := commit_at 100 "second" [1%N] ]> {[ 1%N := commit_at 100 "first" [] ]}.

Definition repo_same_second : Repository :=
  set_refs (clone 2%N history_same_second)
    (<[ "refs/tags/Updated.At" := NewHashReference "refs/tags/Updated.At" 1%N ]>
       (refs (clone 2%N history_same_second))).

(** [repo0] without a working tree, alone on disk. *)
Definition process_bare : Process :=
  {| disk := {[ pkg_path := bare repo0 ]};
     restartEmacsIsNeeded := false; stdout := [] |}.

(** The run over [process0] after the goroutine has left its body, and after
    its [wg.Done()]. *)
Definition state_deferred : State :=
  default (init (disk process0) [pkg_path])
          (run plain pulls1 [L_go pkg_path; L_body 0] (init (disk process0) [pkg_path])).

Definition state_done : State :=
  default state_deferred (exec plain pulls1 state_deferred (L_done 0)).

(** A disk with [repo0] under [pkg_path] and a second repository that the
    lister does not return, and the run over [pkg_path] alone after the
    goroutine has left its body. *)
Definition disk_two : gmap string Repository :=
  <[ "/home/ann/src/other" := repo1 ]> (disk process0).

Definition state_two : State :=
  default (init disk_two [pkg_path])
          (run plain pulls1 [L_go pkg_path; L_body 0] (init disk_two [pkg_path])).

(** A machine on which no Emacs server runs: [emacsclient] fails with a
    message on standard error, anything else succeeds silently. *)
Definition no_server : CommandEffect := λ _ s,
  match s with
  | "emacsclient" :: _ =>
      ([ {| on_stderr := true;
            chunk_bytes := "emacsclient: can't find socket";
            chunk_werr := None |} ],
       Some (ErrOther "exit status 1"))
  | _ => ([], None)
  end.

(** [repo0] once the marker is set and [pull_second] went through. *)
Definition repo0_second : Repository :=
  (pull_second (moved repo0 "refs/tags/Updated.At" 1%N)).2.



(** [repo1] with the marker on its head, commit 2, as a run of the worker
    leaves it, alone on disk. *)
Definition repo1_marked : Repository :=
  set_refs repo1
    (<[ "refs/tags/Updated.At" := NewHashReference "refs/tags/Updated.At" 2%N ]>
       (refs repo1)).

Definition process_marked : Process :=
  {| disk := {[ pkg_path := repo1_marked ]};
     restartEmacsIsNeeded := false; stdout := [] |}.

(** A pull from an origin that carries a tag [Updated.At] of its own, on
    commit 1: the branch has nothing new, and the fetch, which follows tags,
    sets the local reference of that name to the origin's. *)
Definition pull_origin_tag : PullEffect := λ r,
  (None,
   set_refs r
     (<[ "refs/tags/Updated.At" := NewHashReference "refs/tags/Updated.At" 1%N ]>
        (refs r))).

(** A commit with a message of two lines. *)
Definition commit_two_lines : Commit :=
  decode 0xa1b2c3d4e5f60718293a4b5c6d7e8f9012345678%N
         (commit_at 100 ("first line" +:+ s_LF +:+ "second line") []).

(** * Properties *)

(** ** [PullGitChanges] *)

(** With a working tree, the result follows the pull alone: unchanged exactly
    on [NoErrAlreadyUpToDate], changed otherwise, never an error. *)
Lemma PullGitChanges_worktree pull r :
  worktree r = true →
  PullGitChanges pull r =
    ((negb (bool_decide ((pull r).1 = Some NoErrAlreadyUpToDate)), None),
     (pull r).2).
Proof.
  intros Hw. unfold PullGitChanges, Repository_Worktree. rewrite Hw.
  destruct (pull r) as [[e|] r']; simpl; [|done].
  destruct e; done.
Qed.

Lemma PullGitChanges_bare pull r :
  worktree r = false →
  PullGitChanges pull r = ((false, Some ErrIsBareRepository), r).
Proof.
  intros Hw. unfold PullGitChanges, Repository_Worktree. by rewrite Hw.
Qed.

(** C1, as stated, fails on a bare repository: [r.Worktree()] fails, no pull
    is attempted, and the function returns [changed = false] with the error,
    although nothing reported already-up-to-date. *)
Lemma PullGitChanges_bare_not_up_to_date :
  PullGitChanges pull_fails (bare repo1)
    = ((false, Some ErrIsBareRepository), bare repo1)
  ∧ (pull_fails (bare repo1)).1 ≠ Some NoErrAlreadyUpToDate
  ∧ ¬ ((PullGitChanges pull_fails (bare repo1)).1.1 = false
       ↔ (pull_fails (bare repo1)).1 = Some NoErrAlreadyUpToDate).
Proof.
  split; [reflexivity|]. split; [discriminate|].
  intros [H _]. specialize (H eq_refl). discriminate.
Qed.

(** C1 (amended): for a repository whose working tree can be obtained,
    [PullGitChanges] returns [changed = false] exactly when the pull reports
    already-up-to-date, and [changed = true] with a nil error for every
    other outcome of the pull, errors included; the repository is left as the
    pull left it.  When the working tree cannot be obtained, no pull is made
    and the result is [changed = false] with that error. *)
Theorem PullGitChanges_changed_iff (pull : PullEffect) (r : Repository) :
  (worktree r = true →
     let '((changed, err), r') := PullGitChanges pull r in
     err = None ∧ r' = (pull r).2 ∧
     (changed = false ↔ (pull r).1 = Some NoErrAlreadyUpToDate) ∧
     ((pull r).1 ≠ Some NoErrAlreadyUpToDate → changed = true))
  ∧ (worktree r = false →
     PullGitChanges pull r = ((false, Some ErrIsBareRepository), r)).
Proof.
  split; intros Hw; [|by apply PullGitChanges_bare].
  rewrite (PullGitChanges_worktree _ _ Hw).
  split; [done|]. split; [done|].
  case_bool_decide as Hd; simpl.
  - split; [done|]. intros Hn. by destruct Hn.
  - split; [|done]. split; [discriminate|]. intros He. by destruct Hd.
Qed.

Lemma PullGitChanges_changed_iff_witness :
  worktree repo1 = true ∧
  (let '((changed, err), r') := PullGitChanges pull_fails repo1 in
   err = None ∧ r' = (pull_fails repo1).2 ∧
   (changed = false ↔ (pull_fails repo1).1 = Some NoErrAlreadyUpToDate) ∧
   ((pull_fails repo1).1 ≠ Some NoErrAlreadyUpToDate → changed = true)).
Proof.
  split; [reflexivity|].
  exact (proj1 (PullGitChanges_changed_iff pull_fails repo1) eq_refl).
Defined.

(** ** [CreateOrModifyGitTag] *)

(** Go's examples for [path.Clean], and what [r.Tag] looks up. *)
Example path_Clean_examples :
  path_Clean <$> ["a/c"; "a//c"; "a/c/."; "a/c/b/.."; "/../a/c";
                  "/../a/b/../././/c"; ""; "a/../.."; "/"]
  = ["a/c"; "a/c"; "a/c"; "a/c"; "/a/c"; "/a/c"; "."; ".."; "/"].
Proof. vm_compute. reflexivity. Qed.

Example path_Join_examples :
  path_Join <$> [["refs"; "tags"; "Updated.At"]; ["refs"; "tags"; "Updated.At/"];
                 ["refs"; "tags"; "./Updated.At"];
                 ["refs"; "tags"; "../heads/main"]; ["refs"; "tags"; ""]]
  = ["refs/tags/Updated.At"; "refs/tags/Updated.At"; "refs/tags/Updated.At";
     "refs/heads/main"; "refs/tags"].
Proof. vm_compute. reflexivity. Qed.

Lemma path_Join_TagName :
  path_Join ["refs"; "tags"; TagName] = NewTagReferenceName TagName.
Proof. vm_compute. reflexivity. Qed.

Lemma Repository_Tag_Ok r t tag :
  Repository_Tag r t = Ok tag →
  ref_read_err r (path_Join ["refs"; "tags"; t]) = None ∧
  refs r !! path_Join ["refs"; "tags"; t] = Some tag.
Proof.
  unfold Repository_Tag, Storer_Reference.
  destruct (ref_read_err r _) as [e|]; [by destruct e|].
  destruct (refs r !! _); [|done]. by intros [= ->].
Qed.

(** The failures the function does report: a failed write of the moved tag and
    a failed creation come back as the error, with a nil reference. *)
Lemma CreateOrModifyGitTag_write_error r t ref tag e :
  Repository_Tag r t = Ok tag →
  ref_write_err r (Reference_Name tag) = Some e →
  CreateOrModifyGitTag r t ref = ((None, Some e), r).
Proof.
  intros Ht Hw. unfold CreateOrModifyGitTag, Storer_SetReference.
  rewrite Ht. simpl. unfold Reference_Name in *. simpl. by rewrite Hw.
Qed.

Lemma CreateOrModifyGitTag_create_error r t ref e r' :
  Repository_Tag r t = Err ErrTagNotFound →
  Repository_CreateTag r TagName (Reference_Hash ref) = (Err e, r') →
  CreateOrModifyGitTag r t ref = ((None, Some e), r').
Proof.
  intros Ht Hc. unfold CreateOrModifyGitTag. by rewrite Ht, Hc.
Qed.

(** C2 (the code departs from it): a tag lookup that fails with anything but
    [ErrTagNotFound] matches no case of the [switch]; the function returns the
    nil reference with a nil error and leaves the repository alone. *)
Theorem CreateOrModifyGitTag_lookup_error_dropped
    (r : Repository) (t : string) (ref : Reference) (e : error) :
  Repository_Tag r t = Err e →
  e ≠ ErrTagNotFound →
  CreateOrModifyGitTag r t ref = ((None, None), r).
Proof.
  intros Ht Hne. unfold CreateOrModifyGitTag. rewrite Ht.
  destruct e; done.
Qed.

Lemma CreateOrModifyGitTag_lookup_error_dropped_witness :
  Repository_Tag repo1_unreadable_tag TagName = Err (ErrOther "malformed packed-ref")
  ∧ CreateOrModifyGitTag repo1_unreadable_tag TagName
      (NewHashReference "refs/heads/main" 2%N)
    = ((None, None), repo1_unreadable_tag).
Proof.
  split; [reflexivity|].
  apply (CreateOrModifyGitTag_lookup_error_dropped _ _ _
           (ErrOther "malformed packed-ref")); [reflexivity|discriminate].
Defined.

(** On such a repository the worker does not stop at the tag: it pulls, and
    then [GetGitLog] dereferences the nil reference. *)
Example UpdateEmacsStraightRepo_unreadable_tag :
  (UpdateEmacsStraightRepo plain pull_second pkg_path process_unreadable).1
    = Panicked "invalid memory address or nil pointer dereference" 0
  ∧ (objects <$>
       disk (UpdateEmacsStraightRepo plain pull_second pkg_path process_unreadable).2
         !! pkg_path)
    = Some history1.
Proof. split; vm_compute; reflexivity. Qed.

(** C3, as stated, fails when the tag [t] is missing and
    [refs/tags/Updated.At] is there: [r.CreateTag] refuses the name that is
    taken, the function returns [ErrTagExists], and no reference is created,
    under either name. *)
Lemma CreateOrModifyGitTag_absent_not_created :
  Repository_Tag repo1_tagged "Some.Other.Name" = Err ErrTagNotFound
  ∧ CreateOrModifyGitTag repo1_tagged "Some.Other.Name"
      (NewHashReference "refs/heads/main" 2%N)
    = ((None, Some ErrTagExists), repo1_tagged)
  ∧ refs repo1_tagged !! "refs/tags/Updated.At"
    = Some (NewHashReference "refs/tags/Updated.At" 1%N)
  ∧ refs repo1_tagged !! "refs/tags/Some.Other.Name" = None.
Proof. split_and!; vm_compute; reflexivity. Qed.

(** C3 (amended).  When [r.Tag(t)] finds a reference (the one stored under
    [path.Join("refs", "tags", t)]) and it can be written, the function
    stores, under that reference's name, a hash reference to the target's
    hash in place of whatever was there: it is returned with a nil error,
    it is what the store holds under that name afterwards and what [r.Tag(t)]
    finds there, and every other reference and every object is as before.
    When [r.Tag(t)] reports the tag missing, the name used is
    [refs/tags/Updated.At] whatever [t] is: if that name is free and can be
    written, the hash reference to the target's hash is created under it,
    returned, and in the store afterwards; if that name is taken, the
    function returns [ErrTagExists] and the repository is as before; and a
    reference that comes back in this case is never any other. *)
Theorem CreateOrModifyGitTag_moves_or_creates
    (r : Repository) (t : string) (ref : Reference) :
  (∀ tag, Repository_Tag r t = Ok tag →
     ref_write_err r (Reference_Name tag) = None →
     let moved := NewHashReference (Reference_Name tag) (Reference_Hash ref) in
     (CreateOrModifyGitTag r t ref).1 = (Some moved, None)
     ∧ refs (CreateOrModifyGitTag r t ref).2 !! Reference_Name tag = Some moved
     ∧ (∀ k, k ≠ Reference_Name tag →
             refs (CreateOrModifyGitTag r t ref).2 !! k = refs r !! k)
     ∧ objects (CreateOrModifyGitTag r t ref).2 = objects r
     ∧ (refs_named r →
        Reference_Name tag = path_Join ["refs"; "tags"; t]
        ∧ Repository_Tag (CreateOrModifyGitTag r t ref).2 t = Ok moved))
  ∧ (Repository_Tag r t = Err ErrTagNotFound →
     let created := NewHashReference "refs/tags/Updated.At" (Reference_Hash ref) in
     (Storer_Reference r "refs/tags/Updated.At" = Err ErrReferenceNotFound →
      ref_write_err r "refs/tags/Updated.At" = None →
      (CreateOrModifyGitTag r t ref).1 = (Some created, None)
      ∧ refs (CreateOrModifyGitTag r t ref).2 !! "refs/tags/Updated.At"
        = Some created
      ∧ (∀ k, k ≠ "refs/tags/Updated.At" →
              refs (CreateOrModifyGitTag r t ref).2 !! k = refs r !! k)
      ∧ objects (CreateOrModifyGitTag r t ref).2 = objects r)
     ∧ (∀ existing,
          Storer_Reference r "refs/tags/Updated.At" = Ok existing →
          CreateOrModifyGitTag r t ref = ((None, Some ErrTagExists), r))
     ∧ (∀ tag r', CreateOrModifyGitTag r t ref = ((Some tag, None), r') →
          tag = created
          ∧ refs r' !! "refs/tags/Updated.At" = Some created)).
Proof.
  split.
  - intros tag Ht Hw moved.
    assert (E : CreateOrModifyGitTag r t ref
                = ((Some moved, None),
                   set_refs r (<[Reference_Name tag := moved]> (refs r)))).
    { unfold CreateOrModifyGitTag, Storer_SetReference. rewrite Ht.
      fold moved. replace (Reference_Name moved) with (Reference_Name tag) by done.
      by rewrite Hw. }
    rewrite E. cbn [fst snd]. split_and!; [done| | |done|].
    + cbn [refs set_refs]. by rewrite lookup_insert_eq.
    + intros k Hk. cbn [refs set_refs]. by rewrite lookup_insert_ne.
    + intros Hn. apply Repository_Tag_Ok in Ht as [Hread Ht].
      pose proof (Hn _ _ Ht) as Hname. split; [done|].
      unfold Repository_Tag, Storer_Reference. cbn [ref_read_err refs set_refs].
      by rewrite Hread, <-Hname, lookup_insert_eq.
  - intros Ht created.
    change "refs/tags/Updated.At" with (NewTagReferenceName TagName).
    unfold CreateOrModifyGitTag, Repository_CreateTag, Storer_SetReference.
    rewrite Ht.
    replace (Reference_Name (NewHashReference (NewTagReferenceName TagName)
                               (Reference_Hash ref)))
      with (NewTagReferenceName TagName) by done.
    split_and!.
    + intros Hr Hw. rewrite Hr, Hw. cbn [fst snd refs set_refs objects].
      split_and!; [done| |  |done].
      * by rewrite lookup_insert_eq.
      * intros k Hk. by rewrite lookup_insert_ne.
    + intros existing Hr. by rewrite Hr.
    + intros tag r'.
      destruct (Storer_Reference r (NewTagReferenceName TagName)) as [?|e];
        [done|].
      destruct e; try done.
      destruct (ref_write_err r (NewTagReferenceName TagName)); [done|].
      intros [= <- <-]. split; [done|].
      cbn [refs set_refs]. by rewrite lookup_insert_eq.
Qed.

Lemma CreateOrModifyGitTag_moves_or_creates_witness :
  ((CreateOrModifyGitTag repo1_tagged TagName
      (NewHashReference "refs/heads/main" 2%N)).1
   = (Some (NewHashReference "refs/tags/Updated.At" 2%N), None)
   ∧ refs (CreateOrModifyGitTag repo1_tagged TagName
             (NewHashReference "refs/heads/main" 2%N)).2
       !! "refs/tags/Updated.At"
     = Some (NewHashReference "refs/tags/Updated.At" 2%N))
  ∧ ((CreateOrModifyGitTag repo1_tagged "./Updated.At"
        (NewHashReference "refs/heads/main" 2%N)).1
     = (Some (NewHashReference "refs/tags/Updated.At" 2%N), None)
     ∧ refs (CreateOrModifyGitTag repo1_tagged "./Updated.At"
               (NewHashReference "refs/heads/main" 2%N)).2
         !! "refs/tags/Updated.At"
       = Some (NewHashReference "refs/tags/Updated.At" 2%N))
  ∧ ((CreateOrModifyGitTag repo1 "Some.Other.Name"
        (NewHashReference "refs/heads/main" 2%N)).1
     = (Some (NewHashReference "refs/tags/Updated.At" 2%N), None)
     ∧ refs (CreateOrModifyGitTag repo1 "Some.Other.Name"
               (NewHashReference "refs/heads/main" 2%N)).2
         !! "refs/tags/Updated.At"
       = Some (NewHashReference "refs/tags/Updated.At" 2%N)
     ∧ refs (CreateOrModifyGitTag repo1 "Some.Other.Name"
               (NewHashReference "refs/heads/main" 2%N)).2
         !! "refs/tags/Some.Other.Name" = None)
  ∧ CreateOrModifyGitTag repo1_tagged "Some.Other.Name"
      (NewHashReference "refs/heads/main" 2%N)
    = ((None, Some ErrTagExists), repo1_tagged).
Proof.
  split; [|split; [|split]].
  - destruct (proj1 (CreateOrModifyGitTag_moves_or_creates repo1_tagged TagName
                       (NewHashReference "refs/heads/main" 2%N))
                (NewHashReference "refs/tags/Updated.At" 1%N) eq_refl eq_refl)
      as (H1 & H2 & _).
    exact (conj H1 H2).
  - destruct (proj1 (CreateOrModifyGitTag_moves_or_creates repo1_tagged
                       "./Updated.At"
                       (NewHashReference "refs/heads/main" 2%N))
                (NewHashReference "refs/tags/Updated.At" 1%N) eq_refl eq_refl)
      as (H1 & H2 & _).
    exact (conj H1 H2).
  - destruct (proj1 (proj2 (CreateOrModifyGitTag_moves_or_creates repo1
                              "Some.Other.Name"
                              (NewHashReference "refs/heads/main" 2%N))
                       eq_refl) eq_refl eq_refl)
      as (H1 & H2 & H3 & _).
    split_and!; [exact H1|exact H2|].
    rewrite (H3 "refs/tags/Some.Other.Name") by discriminate. reflexivity.
  - exact (proj1 (proj2 (proj2 (CreateOrModifyGitTag_moves_or_creates
                                  repo1_tagged "Some.Other.Name"
                                  (NewHashReference "refs/heads/main" 2%N))
                           eq_refl))
             (NewHashReference "refs/tags/Updated.At" 1%N) eq_refl).
Defined.

(** After either branch the reference reads back as the target's hash and
    every other reference is as before. *)
Lemma set_refs_insert_lookup r k ref k' :
  refs (set_refs r (<[k := ref]> (refs r))) !! k'
  = if decide (k = k') then Some ref else refs r !! k'.
Proof. simpl. by rewrite lookup_insert. Qed.

(** ** The log formatter *)

Lemma append_assoc (s1 s2 s3 : string) : (s1 +:+ s2) +:+ s3 = s1 +:+ s2 +:+ s3.
Proof. induction s1 as [|a s1 IH]; simpl; [done|]. by rewrite IH. Qed.

Lemma append_nil_r (s : string) : s +:+ "" = s.
Proof. induction s as [|a s IH]; simpl; [done|]. by rewrite IH. Qed.

Lemma hex_length k n : String.length (hex k n) = k.
Proof. induction k as [|k IH]; simpl; [done|]. by rewrite IH. Qed.

Lemma hexdigit_is_hex d : is_hex (hexdigit d) = true.
Proof.
  destruct d as [|p]; [reflexivity|].
  do 5 (try (destruct p as [p|p|]; try reflexivity)).
Qed.

Lemma hex_is_hex k n :
  Forall (λ a, is_hex a = true) (list_ascii_of_string (hex k n)).
Proof.
  induction k as [|k IH]; simpl; constructor; [apply hexdigit_is_hex | done].
Qed.

Lemma substring_0_split (m : nat) (s : string) :
  m ≤ String.length s →
  String.length (substring 0 m s) = m ∧
  s = substring 0 m s +:+ substring m (String.length s - m) s.
Proof.
  revert s. induction m as [|m IH]; intros s Hm.
  - split; [by destruct s|]. destruct s as [|a s]; [done|]. simpl.
    f_equal. clear. induction s as [|b s IHs]; [done|]. simpl. by f_equal.
  - destruct s as [|a s]; simpl in *; [lia|].
    destruct (IH s) as [Hl Hs]; [lia|]. split; [by rewrite Hl|]. by f_equal.
Qed.

Lemma tpl_slice_Hash_String h :
  tpl_slice (Hash_String h) 0 6 = Ok (substring 0 6 (Hash_String h)).
Proof.
  unfold tpl_slice, Hash_String. rewrite hex_length.
  case_decide as Hd; [done|]. exfalso. apply Hd. lia.
Qed.

Lemma TAB_ne_LF : TAB ≠ LF.
Proof. discriminate. Qed.

Lemma LF_indented_cons a s : a ≠ LF → LF_indented s → LF_indented (String a s).
Proof.
  intros Ha Hs [|i]; simpl; [by intros [= ?]|]. apply Hs.
Qed.

Lemma LF_indented_indent s : LF_indented s → LF_indented (indent +:+ s).
Proof.
  intros Hs i. unfold indent. simpl.
  destruct i as [|[|[|i]]]; simpl; [done | by intros [=] | by intros [=] |].
  apply Hs.
Qed.

Lemma replaceAll_LF_indented s : LF_indented (replaceAll_LF s indent).
Proof.
  induction s as [|a s IH]; simpl.
  - by intros [|i].
  - case_decide.
    + by apply LF_indented_indent.
    + by apply LF_indented_cons.
Qed.

Lemma unindent_replaceAll_LF s : unindent (replaceAll_LF s indent) = s.
Proof.
  induction s as [|a s IH]; simpl; [done|].
  case_decide as Ha.
  - subst a. unfold indent in *. simpl. by rewrite IH.
  - simpl. rewrite decide_False by done. by rewrite IH.
Qed.

Lemma hexvalue_hexdigit d : (d < 16)%N → hexvalue (hexdigit d) = Some d.
Proof.
  intros Hd. destruct d as [|p]; [reflexivity|].
  do 4 (destruct p as [p|p|]; try reflexivity); lia.
Qed.

Lemma parse_hex_hex k n : ∀ acc,
  parse_hex (hex k n) acc = Some (acc * 16 ^ N.of_nat k + n mod 16 ^ N.of_nat k)%N.
Proof.
  induction k as [|k IH]; intros acc.
  - simpl. f_equal. rewrite N.mod_1_r. lia.
  - cbn [hex parse_hex].
    rewrite hexvalue_hexdigit by (apply N.mod_lt; lia).
    rewrite IH. f_equal.
    rewrite Nat2N.inj_succ, N.pow_succ_r'.
    rewrite (N.mul_comm 16 (16 ^ N.of_nat k)).
    rewrite (N.Div0.mod_mul_r n (16 ^ N.of_nat k) 16). lia.
Qed.

Lemma substring_hex m j n :
  substring 0 m (hex (m + j) n) = hex m (n / 16 ^ N.of_nat j).
Proof.
  induction m as [|m IH]; [by destruct (hex (0 + j) n)|].
  cbn [Nat.add hex substring]. rewrite IH. f_equal. f_equal.
  rewrite N.Div0.div_div, Nat2N.inj_add, N.pow_add_r.
  by rewrite (N.mul_comm (16 ^ N.of_nat j)).
Qed.

(** C8: executing [commitBrief] on a commit never fails and writes, between
    the styled date and the styled author, the styled first six characters of
    the 40 hex digit hash string; the message is written after a line feed and
    two tabs, with every line feed in it followed by two tabs (and is the
    commit's message once those tabs are taken out again).  The hash string
    is the commit's hash: read back as a number its 40 digits give the 160
    bits of the hash, and the six printed ones give the leading 24 of them. *)
Theorem commitBrief_Execute_format (o : Output) (c : Commit) :
  let short := substring 0 6 (Hash_String (c_Hash c)) in
  let msg := replaceAll_LF (c_Message c) indent in
  commitBrief_Execute o c
    = (s_TAB +:+ Color o "140" (Format_2006_01_02 o (sig_When (c_Committer c)))
             +:+ " " +:+ Color o "104" short +:+ " "
             +:+ Color o "111" (Signature_String (c_Author c)) +:+ s_LF
             +:+ s_TAB +:+ s_TAB +:+ Color o "108" msg +:+ s_LF,
       None)
  ∧ String.length (Hash_String (c_Hash c)) = 40
  ∧ Forall (λ a, is_hex a = true) (list_ascii_of_string (Hash_String (c_Hash c)))
  ∧ String.length short = 6
  ∧ (∃ rest, Hash_String (c_Hash c) = short +:+ rest)
  ∧ LF_indented msg
  ∧ unindent msg = c_Message c
  ∧ parse_hex (Hash_String (c_Hash c)) 0 = Some (c_Hash c mod 2 ^ 160)%N
  ∧ parse_hex short 0 = Some ((c_Hash c / 2 ^ 136) mod 2 ^ 24)%N.
Proof.
  intros short msg.
  assert (Hlen : String.length (Hash_String (c_Hash c)) = 40) by apply hex_length.
  destruct (substring_0_split 6 (Hash_String (c_Hash c))) as [H6 Hsplit]; [lia|].
  split_and!.
  - unfold commitBrief_Execute. rewrite tpl_slice_Hash_String.
    fold short msg. f_equal. by rewrite !append_assoc.
  - done.
  - apply hex_is_hex.
  - done.
  - eexists. exact Hsplit.
  - apply replaceAll_LF_indented.
  - apply unindent_replaceAll_LF.
  - unfold Hash_String. rewrite parse_hex_hex. f_equal.
  - unfold short, Hash_String.
    rewrite (substring_hex 6 34), parse_hex_hex. f_equal.
Qed.

Lemma commitBrief_Execute_format_witness :
  commitBrief_Execute plain commit_two_lines
  = (s_TAB +:+ "1970-01-01 a1b2c3 ann <ann@example.org>" +:+ s_LF
           +:+ s_TAB +:+ s_TAB +:+ "first line" +:+ s_LF
           +:+ s_TAB +:+ s_TAB +:+ "second line" +:+ s_LF,
     None)
  ∧ Hash_String (c_Hash commit_two_lines)
    = "a1b2c3d4e5f60718293a4b5c6d7e8f9012345678"
  ∧ parse_hex "a1b2c3d4e5f60718293a4b5c6d7e8f9012345678" 0
    = Some (c_Hash commit_two_lines)
  ∧ parse_hex "a1b2c3" 0 = Some 0xa1b2c3%N.
Proof.
  pose proof (commitBrief_Execute_format plain commit_two_lines) as H.
  cbv zeta in H.
  destruct H as (Hexec & _ & _ & _ & _ & _ & _ & Hfull & Hshort).
  split_and!.
  - rewrite Hexec. vm_compute. reflexivity.
  - vm_compute. reflexivity.
  - change "a1b2c3d4e5f60718293a4b5c6d7e8f9012345678"
      with (Hash_String (c_Hash commit_two_lines)).
    rewrite Hfull. vm_compute. reflexivity.
  - change "a1b2c3"
      with (substring 0 6 (Hash_String (c_Hash commit_two_lines))).
    rewrite Hshort. vm_compute. reflexivity.
Defined.

(** ** [ListEmacsStraightRepos] *)

(** C9: [ListEmacsStraightRepos] depends on the machine alone.  Without a home
    directory it returns the error of [os.UserHomeDir] and no path; with one
    it returns what [filepath.Glob] returns for the pattern
    [<home>/.emacs.d/straight/repos/*], so no path and a nil error when
    nothing matches. *)
Theorem ListEmacsStraightRepos_spec (os : OS) :
  (∀ err, UserHomeDir os = Err err →
     ListEmacsStraightRepos os = ([], Some err))
  ∧ (∀ home, UserHomeDir os = Ok home →
     ListEmacsStraightRepos os
       = filepath_Glob os (filepath_Join os [home; ".emacs.d/straight/repos"; "*"]))
  ∧ (∀ home, UserHomeDir os = Ok home →
     filepath_Glob os (filepath_Join os [home; ".emacs.d/straight/repos"; "*"])
       = ([], None) →
     ListEmacsStraightRepos os = ([], None)).
Proof.
  unfold ListEmacsStraightRepos. split_and!.
  - by intros err ->.
  - by intros home ->.
  - by intros home -> ->.
Qed.

Lemma ListEmacsStraightRepos_spec_witness :
  ListEmacsStraightRepos os_no_home = ([], Some (ErrOther "$HOME is not defined"))
  ∧ ListEmacsStraightRepos os1 = (["/home/ann/.emacs.d/straight/repos/pkg"], None).
Proof.
  split.
  - exact (proj1 (ListEmacsStraightRepos_spec os_no_home) _ eq_refl).
  - exact (proj1 (proj2 (ListEmacsStraightRepos_spec os1)) _ eq_refl).
Defined.

(** ** The pre-order walk *)

Section Walk.
Variable objs : gmap Hash CommitData.

Lemma skip_seen_nil seen stack :
  skip_seen seen stack = [] → ∀ s, s ∈ stack → s ∈ seen.
Proof.
  induction stack as [|h rest IH]; simpl; intros Hs s Hin.
  - by apply elem_of_nil in Hin.
  - case_decide as Hh; [|done].
    apply elem_of_cons in Hin as [->|Hin]; auto.
Qed.

Lemma skip_seen_cons seen stack h rest :
  skip_seen seen stack = h :: rest →
  (h ∉ seen) ∧ h ∈ stack ∧ (∀ s, s ∈ rest → s ∈ stack) ∧
  (∀ s, s ∈ stack → s ∈ seen ∨ s = h ∨ s ∈ rest).
Proof.
  induction stack as [|a stack IH]; simpl; [done|].
  case_decide as Ha.
  - intros Hs. destruct (IH Hs) as (Hn & Hin & Hrest & Hall).
    split_and!; [done| by right | by (intros; right; auto) |].
    intros s [->|Hs']%elem_of_cons; auto.
  - intros [= -> ->]. split_and!; [done | by left | by (intros; right) |].
    intros s [->|Hs']%elem_of_cons; auto.
Qed.

Lemma unseen_shrinks (seen : gset Hash) h :
  h ∉ seen → is_Some (objs !! h) →
  size (dom objs ∖ ({[h]} ∪ seen)) < size (dom objs ∖ seen).
Proof.
  intros Hn Hh. apply subset_size.
  assert (Hdom : h ∈ dom objs) by (by apply elem_of_dom).
  split.
  - intros x [Hx Hns]%elem_of_difference. apply elem_of_difference.
    split; [done|]. intros Hs. apply Hns, elem_of_union. by right.
  - intros Hsub. assert (Hin : h ∈ dom objs ∖ ({[h]} ∪ seen)).
    { apply Hsub, elem_of_difference. by split. }
    apply elem_of_difference in Hin as [_ Hin]. apply Hin, elem_of_union.
    left. by apply elem_of_singleton.
Qed.

Lemma reachable_parent h d h' h'' :
  objs !! h = Some d → h' ∈ cd_ParentHashes d →
  reachable objs h' h'' → reachable objs h h''.
Proof.
  intros Hd Hp Hr. eapply rtc_l; [|exact Hr]. by exists d.
Qed.

(** What the walk yields is new, is in the store and descends from the stack,
    and no commit comes twice. *)
Lemma preorder_sound fuel : ∀ stack seen cs e,
  preorder fuel objs stack seen = (cs, e) →
  NoDup (hashes cs) ∧
  ∀ c, c ∈ cs →
    (c_Hash c ∉ seen) ∧ stored objs c ∧
    ∃ s, s ∈ stack ∧ reachable objs s (c_Hash c).
Proof.
  induction fuel as [|fuel IH]; intros stack seen cs e; simpl.
  { intros [= <- <-]. split; [constructor|]. by intros c ?%elem_of_nil. }
  destruct (skip_seen seen stack) as [|h rest] eqn:Hskip.
  { intros [= <- <-]. split; [constructor|]. by intros c ?%elem_of_nil. }
  apply skip_seen_cons in Hskip as (Hn & Hin & Hrest & _).
  destruct (objs !! h) as [d|] eqn:Hd.
  2:{ intros [= <- <-]. split; [constructor|]. by intros c ?%elem_of_nil. }
  destruct (preorder fuel objs _ _) as [cs' e'] eqn:Hrec.
  intros [= <- <-]. apply IH in Hrec as [Hnd Hcs].
  split.
  - unfold hashes. simpl. constructor; [|done].
    intros (c & Hc & Hcin)%list_elem_of_fmap.
    apply Hcs in Hcin as (Hns & _). simpl in Hc. subst h.
    apply Hns, elem_of_union. left. by apply elem_of_singleton.
  - intros c [->|Hc]%elem_of_cons.
    + simpl. split_and!; [done | by exists d |]. exists h. split; [done|].
      apply rtc_refl.
    + apply Hcs in Hc as (Hns & Hst & s & Hs & Hr).
      split_and!; [by intros Hseen; apply Hns, elem_of_union; right | done |].
      apply elem_of_app in Hs as [Hs|Hs].
      * exists h. split; [done|]. by eapply reachable_parent.
      * exists s. split; [by apply Hrest | done].
Qed.

(** A walk that ends without an error has covered the stack and the parents
    of everything it yielded. *)
Lemma preorder_closed fuel : ∀ stack seen cs,
  size (dom objs ∖ seen) < fuel →
  preorder fuel objs stack seen = (cs, None) →
  (∀ s, s ∈ stack → s ∈ seen ∨ s ∈ hashes cs) ∧
  (∀ c h', c ∈ cs → h' ∈ c_ParentHashes c → h' ∈ seen ∨ h' ∈ hashes cs).
Proof.
  induction fuel as [|fuel IH]; intros stack seen cs Hfuel; [lia|]. simpl.
  destruct (skip_seen seen stack) as [|h rest] eqn:Hskip.
  { intros [= <-]. split; [|by intros c h' ?%elem_of_nil].
    intros s Hs. left. by eapply skip_seen_nil. }
  apply skip_seen_cons in Hskip as (Hn & Hin & Hrest & Hall).
  destruct (objs !! h) as [d|] eqn:Hd; [|done].
  destruct (preorder fuel objs _ _) as [cs' e'] eqn:Hrec.
  intros [= <- ->].
  apply IH in Hrec as [Hstack Hpar].
  2:{ pose proof (unseen_shrinks seen h Hn (mk_is_Some _ _ Hd)). lia. }
  assert (Hlift : ∀ x, x ∈ ({[h]} ∪ seen : gset Hash) ∨ x ∈ hashes cs' →
                       x ∈ seen ∨ x ∈ hashes (decode h d :: cs')).
  { intros x [Hx|Hx].
    - apply elem_of_union in Hx as [->%elem_of_singleton|Hx]; [|by left].
      right. unfold hashes. simpl. by left.
    - right. unfold hashes. simpl. by right. }
  split.
  - intros s Hs. destruct (Hall s Hs) as [?|[->|Hr]]; [by left | |].
    + right. unfold hashes. simpl. by left.
    + apply Hlift, Hstack. apply elem_of_app. by right.
  - intros c h' [->|Hc]%elem_of_cons Hh'.
    + simpl in Hh'. apply Hlift, Hstack. apply elem_of_app. by left.
    + apply Hlift. by eapply Hpar.
Qed.

(** With the history below the stack all there, the walk meets no error. *)
Lemma preorder_no_error fuel : ∀ stack seen cs e,
  (∀ s h', s ∈ stack → reachable objs s h' → is_Some (objs !! h')) →
  preorder fuel objs stack seen = (cs, e) →
  e = None.
Proof.
  induction fuel as [|fuel IH]; intros stack seen cs e Hall; simpl.
  { by intros [= <- <-]. }
  destruct (skip_seen seen stack) as [|h rest] eqn:Hskip.
  { by intros [= <- <-]. }
  apply skip_seen_cons in Hskip as (Hn & Hin & Hrest & _).
  destruct (objs !! h) as [d|] eqn:Hd.
  2:{ destruct (Hall h h Hin (rtc_refl _ _)) as [d Hd']. congruence. }
  destruct (preorder fuel objs _ _) as [cs' e'] eqn:Hrec.
  intros [= <- <-]. eapply IH; [|exact Hrec].
  intros s h' [Hs|Hs]%elem_of_app Hr.
  - apply (Hall h h' Hin). by eapply reachable_parent.
  - apply (Hall s h'); [by apply Hrest | done].
Qed.

(** More fuel than there are unseen objects changes nothing. *)
Lemma preorder_fuel fuel fuel' : ∀ stack seen,
  size (dom objs ∖ seen) < fuel → fuel ≤ fuel' →
  preorder fuel' objs stack seen = preorder fuel objs stack seen.
Proof.
  revert fuel'. induction fuel as [|fuel IH]; intros fuel' stack seen Hf Hle; [lia|].
  destruct fuel' as [|fuel']; [lia|]. simpl.
  destruct (skip_seen seen stack) as [|h rest] eqn:Hskip; [done|].
  apply skip_seen_cons in Hskip as (Hn & _).
  destruct (objs !! h) as [d|] eqn:Hd; [|done].
  rewrite (IH fuel'); [done| |lia].
  pose proof (unseen_shrinks seen h Hn (mk_is_Some _ _ Hd)). lia.
Qed.

End Walk.

(** ** [Repository.Log] *)

Lemma stored_inj objs c c' :
  stored objs c → stored objs c' → c_Hash c = c_Hash c' → c = c'.
Proof.
  intros (d & Hd & Hc) (d' & Hd' & Hc') Heq.
  rewrite Heq, Hd' in Hd. injection Hd as ->.
  rewrite Hc, Heq. symmetry. exact Hc'.
Qed.

Lemma store_closed_complete objs h :
  store_closed objs → is_Some (objs !! h) → history_complete objs h.
Proof.
  intros Hc Hh h' Hr. induction Hr as [|x y z (d & Hd & Hy) _ IH]; [done|].
  apply IH. specialize (Hc x d Hd). simpl in Hc.
  rewrite Forall_forall in Hc. by apply Hc.
Qed.

(** From a commit whose history is all there, the pre-order iterator ends
    without an error, and yields exactly the stored commits reachable from it,
    each once. *)
Lemma NewCommitPreorderIter_reachable r h d :
  objects r !! h = Some d →
  history_complete (objects r) h →
  ∃ cs, NewCommitPreorderIter r (decode h d) = (cs, None) ∧
        NoDup (hashes cs) ∧
        ∀ c, c ∈ cs ↔ stored (objects r) c ∧ reachable (objects r) h (c_Hash c).
Proof.
  intros Hd Hall. unfold NewCommitPreorderIter.
  change (c_ParentHashes (decode h d)) with (cd_ParentHashes d).
  change (c_Hash (decode h d)) with h.
  destruct (preorder (S (size (objects r))) (objects r) (cd_ParentHashes d) {[h]})
    as [cs e] eqn:Hwalk.
  assert (e = None) as ->.
  { eapply preorder_no_error; [|exact Hwalk].
    intros s h' Hs Hr. apply Hall. by eapply reachable_parent. }
  destruct (preorder_sound _ _ _ _ _ _ Hwalk) as [Hnd Hcs].
  assert (Hfuel : size (dom (objects r) ∖ {[h]}) < S (size (objects r))).
  { rewrite <-(size_dom (D:=gset Hash)).
    apply Nat.lt_succ_r, subseteq_size.
    by intros x [Hx _]%elem_of_difference. }
  destruct (preorder_closed _ _ _ _ _ Hfuel Hwalk) as [Hstack Hpar].
  exists (decode h d :: cs). split; [done|]. split.
  { unfold hashes. simpl. constructor; [|done].
    intros (c & Hc & Hin)%list_elem_of_fmap.
    apply Hcs in Hin as (Hn & _). simpl in Hc. subst h.
    by apply Hn, elem_of_singleton. }
  intros c. split.
  - intros [->|Hc]%elem_of_cons.
    + split; [by exists d | apply rtc_refl].
    + apply Hcs in Hc as (_ & Hst & s & Hs & Hr).
      split; [done|]. by eapply reachable_parent.
  - intros [Hst Hr].
    assert (Hin : c_Hash c ∈ hashes (decode h d :: cs)).
    { clear Hst. unfold reachable in Hr. revert Hr.
      generalize (c_Hash c).
      apply (rtc_ind_r (λ z, z ∈ hashes (decode h d :: cs))).
      - unfold hashes. simpl. by left.
      - intros y z Hxy Hyz IH. destruct Hyz as (dy & Hdy & Hz).
        unfold hashes in IH. simpl in IH.
        apply elem_of_cons in IH as [->|Hy].
        + assert (dy = d) as -> by congruence.
          destruct (Hstack z Hz) as [->%elem_of_singleton|Hin];
            [by left | by right].
        + apply list_elem_of_fmap in Hy as (c' & -> & Hc').
          destruct (Hcs c' Hc') as (_ & (d' & Hd' & Hceq) & _).
          assert (d' = dy) as -> by congruence.
          destruct (Hpar c' z Hc') as [->%elem_of_singleton|Hin];
            [by rewrite Hceq | by left | by right]. }
    apply list_elem_of_fmap in Hin as (c' & Heq & Hc').
    replace c with c'; [done|].
    eapply stored_inj; [| exact Hst | done].
    apply elem_of_cons in Hc' as [->|Hc']; [by exists d|].
    by apply Hcs in Hc' as (_ & ? & _).
Qed.

(** [Repository.Log] with [Since]: of those commits, the ones not before
    [since]. *)
Lemma Repository_Log_since r head since :
  Repository_Head r = Ok head →
  history_complete (objects r) (Reference_Hash head) →
  ∃ cs, Repository_Log r since = Ok (cs, None) ∧
        NoDup (hashes cs) ∧
        ∀ c, c ∈ cs ↔
             stored (objects r) c ∧
             reachable (objects r) (Reference_Hash head) (c_Hash c) ∧
             (unix_nano since ≤ unix_nano (sig_When (c_Committer c)))%Z.
Proof.
  intros Hhead Hall. unfold Repository_Log, Repository_CommitObject.
  rewrite Hhead.
  destruct (Hall (Reference_Hash head) (rtc_refl _ _)) as [d Hd]. rewrite Hd.
  destruct (NewCommitPreorderIter_reachable r _ d Hd Hall) as (cs & -> & Hnd & Hcs).
  eexists. split; [reflexivity|]. simpl. split.
  - apply (sublist_NoDup _ (hashes cs)); [done|].
    apply fmap_sublist, sublist_filter.
  - intros c. rewrite list_elem_of_filter, Hcs. unfold Time_Before.
    rewrite Z.ltb_ge. tauto.
Qed.

(** ** [GetGitLog] *)

Lemma commitBrief_Execute_no_error o c : (commitBrief_Execute o c).2 = None.
Proof. unfold commitBrief_Execute. by rewrite tpl_slice_Hash_String. Qed.

Lemma int_incr_in_range n :
  (- 2 ^ 63 ≤ n)%Z → (n + 1 < 2 ^ 63)%Z → int_incr n = (n + 1)%Z.
Proof.
  intros Hlo Hhi. unfold int_incr, int_wrap.
  rewrite Z.mod_small; lia.
Qed.

Lemma ForEach_GetGitLog_f o cs e : ∀ n buf,
  (- 2 ^ 63 ≤ n)%Z → (n + Z.of_nat (length cs) < 2 ^ 63)%Z →
  ForEach cs e (GetGitLog_f o) (n, buf)
  = (e, ((n + Z.of_nat (length cs))%Z, buf +:+ render o cs)).
Proof.
  induction cs as [|c cs IH]; intros n buf Hlo Hhi; simpl.
  - by rewrite Z.add_0_r, append_nil_r.
  - unfold GetGitLog_f at 1. simpl.
    pose proof (commitBrief_Execute_no_error o c) as Hok.
    destruct (commitBrief_Execute o c) as [text err]. simpl in *. subst err.
    rewrite int_incr_in_range by lia.
    rewrite IH by lia. rewrite append_assoc. do 2 f_equal. lia.
Qed.

Lemma stored_length_le objs cs :
  NoDup (hashes cs) → (∀ c, c ∈ cs → stored objs c) → length cs ≤ size objs.
Proof.
  intros Hnd Hst.
  rewrite <-(length_fmap c_Hash cs), <-(size_dom (D:=gset Hash)).
  rewrite <-(size_list_to_set (C:=gset Hash)) by done.
  apply subseteq_size. intros h Hh.
  apply elem_of_list_to_set, list_elem_of_fmap in Hh as (c & -> & Hc).
  destruct (Hst c Hc) as (d & Hd & _). by apply elem_of_dom.
Qed.



Lemma history1_complete : history_complete history1 2%N.
Proof.
  apply store_closed_complete; [|by eexists].
  apply map_Forall_lookup. intros h d Hd. unfold history1 in Hd.
  apply lookup_insert_Some in Hd as [[<- <-]|[_ Hd]].
  { repeat constructor. by eexists. }
  apply lookup_singleton_Some in Hd as [<- <-]. constructor.
Qed.

Lemma stored_history1 c :
  stored history1 c →
  c = decode 1%N (commit_at 100 "first" []) ∨
  c = decode 2%N (commit_at 200 "second" [1%N]).
Proof.
  intros (d & Hd & Hc). unfold history1 in Hd.
  apply lookup_insert_Some in Hd as [[Hh <-]|[_ Hd]].
  { right. by rewrite Hc, <-Hh. }
  apply lookup_singleton_Some in Hd as [Hh <-].
  left. by rewrite Hc, <-Hh.
Qed.

Lemma reachable_history1_root h : reachable history1 1%N h → h = 1%N.
Proof.
  intros Hr. apply rtc_inv in Hr as [Heq|(h' & (d & Hd & Hp) & _)]; [done|].
  unfold history1 in Hd. rewrite lookup_insert_ne in Hd by done.
  apply lookup_singleton_Some in Hd as [_ <-]. by apply elem_of_nil in Hp.
Qed.


Example GetGitLog_repo1_tagged :
  GetGitLog plain repo1_tagged (NewHashReference "refs/tags/Updated.At" 1%N) 0
    = ((render plain [decode 2%N (commit_at 200 "second" [1%N])], None), 1%Z).
Proof. vm_compute. reflexivity. Qed.

(** ** The worker and the error of [GetGitLog] *)

(** C10: once the tag is set and the pull is through, the worker's outcome is
    a function of the count and the text [GetGitLog] left, not of its error:
    it returns (it never calls [log.Fatal]) and, when the count is positive,
    sets [restartEmacsIsNeeded] and prints three pieces: the line with the
    first URL of [origin] and the count, the line with the path, and the text
    [GetGitLog] returned, which on an error is what it had gathered up to
    there. *)
Theorem UpdateEmacsStraightRepo_ignores_GetGitLog_error
    (o : Output) (pull : PullEffect) (p : string) (σ : Process)
    (r r1 r2 : Repository) (head tag : Reference) (rr : RemoteConfig)
    (changed : bool) (l : string) (err : option error) (n : Z)
    (url : string) (urls : list string) :
  PlainOpen σ p = Ok r →
  Repository_Head r = Ok head →
  Repository_Remote r "origin" = Ok rr →
  rc_URLs rr = url :: urls →
  CreateOrModifyGitTag r TagName head = ((Some tag, None), r1) →
  PullGitChanges pull r1 = ((changed, None), r2) →
  GetGitLog o r2 tag 0 = ((l, err), n) →
  UpdateEmacsStraightRepo o pull p σ
    = if (n >? 0)%Z then
        (Returned n,
         {| disk := <[p := r2]> (disk σ); restartEmacsIsNeeded := true;
            stdout := stdout σ ++
              [ Foreground_ANSIYellow o ("Fetched from " +:+ url) +:+ " "
                  +:+ Color o "208" (pretty n +:+ " new commits") +:+ s_LF;
                Faint o ("local path: " +:+ p) +:+ s_LF;
                l ] |})
      else
        (Returned n,
         {| disk := <[p := r2]> (disk σ);
            restartEmacsIsNeeded := restartEmacsIsNeeded σ;
            stdout := stdout σ |}).
Proof.
  intros Hopen Hhead Hrem Hurl Htag Hpull Hlog.
  unfold UpdateEmacsStraightRepo.
  rewrite Hopen, Hhead, Hrem, Htag, Hpull, Hlog, Hurl. done.
Qed.

Lemma UpdateEmacsStraightRepo_ignores_GetGitLog_error_witness :
  GetGitLog plain repo0_pulled (NewHashReference "refs/tags/Updated.At" 1%N) 0
  = ((s_TAB +:+ "1970-01-01 000000 ann <ann@example.org>" +:+ s_LF
            +:+ s_TAB +:+ s_TAB +:+ "third" +:+ s_LF
            +:+ s_TAB +:+ "1970-01-01 000000 ann <ann@example.org>" +:+ s_LF
            +:+ s_TAB +:+ s_TAB +:+ "second" +:+ s_LF,
      Some ErrObjectNotFound), 2%Z)
  ∧ UpdateEmacsStraightRepo plain pull_incomplete pkg_path process0
    = (Returned 2,
       {| disk := <[pkg_path := repo0_pulled]> (disk process0);
          restartEmacsIsNeeded := true;
          stdout :=
            [ "Fetched from https://example.org/pkg.git 2 new commits" +:+ s_LF;
              "local path: /home/ann/.emacs.d/straight/repos/pkg" +:+ s_LF;
              s_TAB +:+ "1970-01-01 000000 ann <ann@example.org>" +:+ s_LF
                +:+ s_TAB +:+ s_TAB +:+ "third" +:+ s_LF
                +:+ s_TAB +:+ "1970-01-01 000000 ann <ann@example.org>" +:+ s_LF
                +:+ s_TAB +:+ s_TAB +:+ "second" +:+ s_LF ] |}).
Proof.
  assert (Hlog :
    GetGitLog plain repo0_pulled (NewHashReference "refs/tags/Updated.At" 1%N) 0
    = ((s_TAB +:+ "1970-01-01 000000 ann <ann@example.org>" +:+ s_LF
              +:+ s_TAB +:+ s_TAB +:+ "third" +:+ s_LF
              +:+ s_TAB +:+ "1970-01-01 000000 ann <ann@example.org>" +:+ s_LF
              +:+ s_TAB +:+ s_TAB +:+ "second" +:+ s_LF,
        Some ErrObjectNotFound), 2%Z)) by (vm_compute; reflexivity).
  split; [exact Hlog|].
  rewrite (UpdateEmacsStraightRepo_ignores_GetGitLog_error
             plain pull_incomplete pkg_path process0
             repo0
             (CreateOrModifyGitTag repo0 TagName
                (NewHashReference "refs/heads/main" 1%N)).2
             repo0_pulled
             (NewHashReference "refs/heads/main" 1%N)
             (NewHashReference "refs/tags/Updated.At" 1%N)
             origin true _ _ _
             "https://example.org/pkg.git" []
             eq_refl eq_refl eq_refl eq_refl eq_refl eq_refl Hlog).
  vm_compute. reflexivity.
Defined.

(** ** [main]: the restart trigger *)

(** The worker leaves the flag raised exactly if it was or the count it
    reached is positive: it never lowers it. *)
Lemma UpdateEmacsStraightRepo_flag o pull p σ e σ' :
  UpdateEmacsStraightRepo o pull p σ = (e, σ') →
  restartEmacsIsNeeded σ'
  = restartEmacsIsNeeded σ || positive_count (exit_count e).
Proof.
  unfold UpdateEmacsStraightRepo.
  repeat case_match; intros [= <- <-]; simpl;
    rewrite ?Z.gtb_ltb in *;
    repeat match goal with H : (_ <? _)%Z = _ |- _ => rewrite H end;
    by rewrite ?orb_true_r, ?orb_false_r.
Qed.

Lemma exec_sound o pulls s l s' :
  exec o pulls s l = Some s' → main_step o pulls s l s'.
Proof.
  unfold exec. destruct (halted s) eqn:Hh; [done|].
  destruct l as [p|i|i|i| |b].
  - destruct (pc s) as [[|p' rest]| |] eqn:Hpc; try done.
    case_decide as Hp; [|done]. subst p'. intros [= <-]. by constructor.
  - destruct (goroutines s !! i) as [[p|e|e]|] eqn:Hg; try done.
    destruct (UpdateEmacsStraightRepo _ _ _ _) as [e σ'] eqn:Hrun.
    destruct e; intros [= <-];
      try (by eapply step_body_fatal);
      by (eapply step_body_leave; [done|done|exact Hrun|done]).
  - destruct (goroutines s !! i) as [[p|e|e]|] eqn:Hg; try done.
    intros [= <-]. by constructor.
  - destruct (goroutines s !! i) as [[p|e|[err|msg n|n]]|] eqn:Hg; try done.
    intros [= <-]. by eapply step_crash.
  - destruct (pc s) as [[|p' rest]| |] eqn:Hpc; try done.
    case_decide as Hw; [|done]. intros [= <-]. by constructor.
  - destruct (pc s) eqn:Hpc; try done.
    case_decide as Hb; [|done]. subst b. intros [= <-]. by constructor.
Qed.

Lemma run_reachable o pulls d repos ls : ∀ s s',
  main_reachable o pulls d repos s →
  run o pulls ls s = Some s' →
  main_reachable o pulls d repos s'.
Proof.
  induction ls as [|l ls IH]; intros s s' Hs; simpl.
  - by intros [= <-].
  - destruct (exec o pulls s l) as [s1|] eqn:Hexec; [|done].
    apply IH. eapply main_reachable_step; [done|]. by apply exec_sound.
Qed.

Lemma pending_app gs g : pending (gs ++ [g]) = pending gs + pending_one g.
Proof. induction gs as [|g' gs IH]; simpl; lia. Qed.

Lemma pending_insert gs : ∀ i g g',
  gs !! i = Some g →
  pending (<[i := g']> gs) + pending_one g = pending gs + pending_one g'.
Proof.
  induction gs as [|g0 gs IH]; intros [|i] g g' Hg; simpl in *; try done.
  - injection Hg as ->. lia.
  - specialize (IH i g g' Hg). lia.
Qed.

Lemma pending_0 gs : pending gs = 0 ↔ Forall is_Finished gs.
Proof.
  induction gs as [|g gs IH]; simpl; [by split|].
  rewrite Forall_cons, <-IH. destruct g; simpl; split; try done; lia.
Qed.

Lemma any_positive_app gs g :
  any_positive (gs ++ [g]) = any_positive gs || positive g.
Proof.
  unfold any_positive. rewrite existsb_app. simpl. by rewrite orb_false_r.
Qed.

Lemma any_positive_insert gs : ∀ i g g',
  gs !! i = Some g → positive g = false →
  any_positive (<[i := g']> gs) = any_positive gs || positive g'.
Proof.
  unfold any_positive.
  induction gs as [|g0 gs IH]; intros [|i] g g' Hg Hp; simpl in *; try done.
  - injection Hg as ->. rewrite Hp. simpl. apply orb_comm.
  - rewrite (IH i g g' Hg Hp). by rewrite orb_assoc.
Qed.

Lemma any_positive_insert_same gs : ∀ i g g',
  gs !! i = Some g → positive g' = positive g →
  any_positive (<[i := g']> gs) = any_positive gs.
Proof.
  unfold any_positive.
  induction gs as [|g0 gs IH]; intros [|i] g g' Hg Hp; simpl in *; try done.
  - injection Hg as ->. by rewrite Hp.
  - by rewrite (IH i g g' Hg Hp).
Qed.


Lemma not_Finished_Running gs i p :
  Forall is_Finished gs → gs !! i = Some (Running p) → False.
Proof. intros Hall Hg. exact (Forall_lookup_1 _ _ _ _ Hall Hg). Qed.

Lemma not_Finished_Deferred gs i e :
  Forall is_Finished gs → gs !! i = Some (Deferred e) → False.
Proof. intros Hall Hg. exact (Forall_lookup_1 _ _ _ _ Hall Hg). Qed.

(** Past the barrier every goroutine is past its [wg.Done()]: a step of a
    goroutine that is not leaves [main] in its loop. *)
Ltac past_barrier_absurd Hpc Hg :=
  match type of Hpc with
  | match pc ?s with _ => _ end =>
      destruct (pc s); rewrite ?length_insert;
      [ done
      | destruct Hpc as (_ & Hall & _); exfalso;
        first [ exact (not_Finished_Running _ _ _ Hall Hg)
              | exact (not_Finished_Deferred _ _ _ Hall Hg) ]
      | destruct Hpc as (Hall & _); exfalso;
        first [ exact (not_Finished_Running _ _ _ Hall Hg)
              | exact (not_Finished_Deferred _ _ _ Hall Hg) ] ]
  end.

Lemma main_inv_init d repos : main_inv repos (init d repos).
Proof. unfold main_inv. simpl. by split_and!. Qed.

Lemma main_inv_step o pulls repos s l s' :
  main_inv repos s → main_step o pulls s l s' → main_inv repos s'.
Proof.
  intros (Hwg & Hflag & Hpc) Hstep.
  destruct Hstep as [s p rest Hh Hp | s i p err σ' Hh Hg Hrun
                    | s i p e σ' Hh Hg Hrun Hne | s i e Hh Hg
                    | s i msg n Hh Hg | s Hh Hp Hw | s Hh Hp];
    unfold main_inv; simpl.
  - rewrite Hp in Hpc. destruct Hpc as [Hr Hlen]. simpl in Hlen.
    split_and!.
    + rewrite pending_app, Hwg. simpl. lia.
    + by rewrite any_positive_app, orb_false_r.
    + done.
    + rewrite length_app. simpl. lia.
  - apply UpdateEmacsStraightRepo_flag in Hrun. simpl in Hrun.
    rewrite orb_false_r in Hrun. split_and!; [done | congruence | by rewrite Hrun].
  - apply UpdateEmacsStraightRepo_flag in Hrun. split_and!.
    + pose proof (pending_insert _ i _ (Deferred e) Hg). simpl in *. lia.
    + rewrite Hrun, Hflag.
      by rewrite (any_positive_insert _ i _ (Deferred e) Hg).
    + past_barrier_absurd Hpc Hg.
  - split_and!.
    + pose proof (pending_insert _ i _ (Finished e) Hg). simpl in *. lia.
    + rewrite Hflag.
      by rewrite (any_positive_insert_same _ i _ (Finished e) Hg).
    + past_barrier_absurd Hpc Hg.
  - done.
  - rewrite Hp in Hpc. destruct Hpc as [Hr Hlen]. simpl in Hlen.
    split_and!; [done | done | done | | lia].
    apply pending_0. by rewrite <-Hwg.
  - rewrite Hp in Hpc. destruct Hpc as (Hr & Hall & Hlen).
    split_and!; [done | done | done | done |].
    rewrite Hr. by destruct (restartEmacsIsNeeded _).
Qed.

Lemma main_reachable_inv o pulls d repos s :
  main_reachable o pulls d repos s → main_inv repos s.
Proof.
  induction 1 as [|s l s' _ IH Hstep]; [apply main_inv_init|].
  by eapply main_inv_step.
Qed.




(** ** The head after the marker is set *)

(** Storing under any name a hash reference to the hash [HEAD] resolves to
    leaves [HEAD] resolving to that hash. *)
Lemma Storer_Reference_moved r k h n :
  Storer_Reference (moved r k h) n
  = if decide (k = n) then
      match ref_read_err r n with
      | Some e => Err e
      | None => Ok (NewHashReference k h)
      end
    else Storer_Reference r n.
Proof.
  unfold Storer_Reference, moved. simpl. rewrite lookup_insert.
  by destruct (ref_read_err r n), (decide (k = n)).
Qed.

Lemma resolveReference_moved r k h fuel : ∀ ref res,
  resolveReference fuel r ref = Ok res →
  Reference_Hash res = h →
  ∃ res', resolveReference fuel (moved r k h) ref = Ok res' ∧
          Reference_Hash res' = h.
Proof.
  induction fuel as [|fuel IH]; intros ref res; simpl.
  - case_decide; [done|]. intros [= <-] Hh. by exists ref.
  - case_decide as Hsym; [|intros [= <-] Hh; by exists ref].
    rewrite Storer_Reference_moved. case_decide as Hk.
    + unfold Storer_Reference.
      destruct (ref_read_err r (Reference_Target ref)) as [e|]; [done|].
      intros _ _. exists (NewHashReference k h). split; [|done].
      by destruct fuel.
    + destruct (Storer_Reference r (Reference_Target ref)) as [t|]; [|done].
      apply IH.
Qed.

Lemma Repository_Head_moved r k head :
  Repository_Head r = Ok head →
  ∃ head', Repository_Head (moved r k (Reference_Hash head)) = Ok head' ∧
           Reference_Hash head' = Reference_Hash head.
Proof.
  unfold Repository_Head, ResolveReference.
  generalize (S MaxResolveRecursion). intros fuel.
  rewrite Storer_Reference_moved. case_decide as Hk.
  - unfold Storer_Reference.
    destruct (ref_read_err r HEAD) as [e|]; [done|].
    intros _. exists (NewHashReference k (Reference_Hash head)). split; [|done].
    by destruct fuel.
  - destruct (Storer_Reference r HEAD) as [ref|]; [|done]. intros Hres.
    by eapply resolveReference_moved.
Qed.

(** What [CreateOrModifyGitTag] can do to a repository: nothing, or set one
    reference to the target's hash; with a reference returned it is the
    latter, and the reference returned is the one set. *)
Lemma CreateOrModifyGitTag_effect r t ref res r1 :
  CreateOrModifyGitTag r t ref = (res, r1) →
  (r1 = r ∧ res.1 = None) ∨
  (∃ k, r1 = moved r k (Reference_Hash ref) ∧
        res = (Some (NewHashReference k (Reference_Hash ref)), None) ∧
        (k = NewTagReferenceName TagName ∨
         ∃ tag, refs r !! path_Join ["refs"; "tags"; t] = Some tag ∧
                k = Reference_Name tag)).
Proof.
  unfold CreateOrModifyGitTag.
  destruct (Repository_Tag r t) as [tag|e] eqn:Htag.
  - unfold Storer_SetReference.
    replace (Reference_Name (NewHashReference (Reference_Name tag) (Reference_Hash ref)))
      with (Reference_Name tag) by done.
    destruct (ref_write_err r (Reference_Name tag)); intros [= <- <-]; [by left|].
    right. exists (Reference_Name tag). split_and!; [done | done |].
    right. exists tag. by apply Repository_Tag_Ok in Htag as [_ ?].
  - destruct e; try (intros [= <- <-]; by left).
    unfold Repository_CreateTag, Storer_SetReference.
    destruct (Storer_Reference r (NewTagReferenceName TagName)) as [?|e];
      [intros [= <- <-]; by left|].
    destruct e; try (intros [= <- <-]; by left).
    replace (Reference_Name (NewHashReference (NewTagReferenceName TagName)
                               (Reference_Hash ref)))
      with (NewTagReferenceName TagName) by done.
    destruct (ref_write_err r (NewTagReferenceName TagName));
      intros [= <- <-]; [by left|].
    right. exists (NewTagReferenceName TagName). split_and!; [done | done | by left].
Qed.

(** ** Two runs in a row *)

Lemma NewCommitPreorderIter_sound r h d cs e :
  objects r !! h = Some d →
  NewCommitPreorderIter r (decode h d) = (cs, e) →
  ∀ c, c ∈ cs → stored (objects r) c ∧ reachable (objects r) h (c_Hash c).
Proof.
  intros Hd. unfold NewCommitPreorderIter.
  change (c_ParentHashes (decode h d)) with (cd_ParentHashes d).
  change (c_Hash (decode h d)) with h.
  destruct (preorder (S (size (objects r))) (objects r) (cd_ParentHashes d) {[h]})
    as [cs' e'] eqn:Hwalk.
  intros [= <- <-] c [->|Hc]%elem_of_cons.
  - split; [by exists d | apply rtc_refl].
  - destruct (preorder_sound _ _ _ _ _ _ Hwalk) as [_ Hcs].
    apply Hcs in Hc as (_ & Hst & s & Hs & Hr).
    split; [done|]. by eapply reachable_parent.
Qed.

Lemma filter_none {A} (P : A → Prop) `{∀ x, Decision (P x)} (l : list A) :
  (∀ x, x ∈ l → ¬ P x) → filter P l = [].
Proof.
  induction l as [|a l IH]; intros Hl; [done|].
  rewrite filter_cons_False by (apply Hl; by left).
  apply IH. intros x Hx. apply Hl. by right.
Qed.

(** With the marker on the head commit and nothing later below it, the log
    is empty and the count stays where it was, error or not. *)
Lemma GetGitLog_nothing_new o r ref head n :
  Repository_Head r = Ok head →
  Reference_Hash ref = Reference_Hash head →
  head_is_latest r →
  ∃ err, GetGitLog o r ref n = (("", err), n).
Proof.
  intros Hhead Hhash Hlatest. unfold GetGitLog.
  destruct (Repository_CommitObject r (Reference_Hash ref)) as [m|e] eqn:Hm;
    [|by eexists].
  unfold Repository_Log. rewrite Hhead, <-Hhash, Hm.
  rewrite Hhash in Hm.
  pose proof Hm as Hm'. unfold Repository_CommitObject in Hm'.
  destruct (objects r !! Reference_Hash head) as [d|] eqn:Hd; [|done].
  injection Hm' as <-.
  destruct (NewCommitPreorderIter r (decode (Reference_Hash head) d))
    as [cs e] eqn:Hit.
  pose proof (NewCommitPreorderIter_sound _ _ _ _ _ Hd Hit) as Hcs.
  unfold CommitLimitIter. simpl.
  replace (filter _ cs) with (@nil Commit); [by eexists|].
  symmetry. apply filter_none.
  intros c Hc. destruct (Hcs c Hc) as [Hst Hr].
  specialize (Hlatest head _ c Hhead Hm Hst Hr).
  unfold Time_Before, Time_Add, Second. simpl in *.
  intros Hb. apply Z.ltb_ge in Hb. lia.
Qed.

Lemma head_is_latest_moved r k head :
  Repository_Head r = Ok head →
  head_is_latest r →
  head_is_latest (moved r k (Reference_Hash head)).
Proof.
  intros Hhead Hlatest head' m c Hhead' Hm Hst Hr.
  destruct (Repository_Head_moved r k head Hhead) as (head'' & Hh'' & Heq).
  rewrite Hhead' in Hh''. injection Hh'' as <-.
  apply (Hlatest head m c Hhead); [ | exact Hst | ].
  - rewrite <-Heq. exact Hm.
  - rewrite <-Heq. exact Hr.
Qed.

(** C6 (as stated) fails on a history with a skewed clock: the head commit
    carries second 100, its parent second 200.  Both pulls report
    already-up-to-date and change nothing, and the second run still counts
    the parent. *)
Lemma second_run_counts_skewed_parent :
  (∀ r, pull_up_to_date r = (Some NoErrAlreadyUpToDate, r)) ∧
  (UpdateEmacsStraightRepo plain pull_up_to_date pkg_path process_skew).1
    = Returned 1 ∧
  (UpdateEmacsStraightRepo plain pull_up_to_date pkg_path
     (UpdateEmacsStraightRepo plain pull_up_to_date pkg_path process_skew).2).1
    = Returned 1.
Proof. split; [done|]. split; vm_compute; reflexivity. Qed.

(** C6 (amended): after a run of the worker on a repository, a second run
    whose pull reports already-up-to-date and changes nothing counts no
    commit, raises no flag and prints nothing, provided no commit reachable
    from the head is one second or more later than the head commit. *)
Theorem second_run_counts_nothing
    (o : Output) (pull1 pull2 : PullEffect) (p : string)
    (σ0 σ1 σ2 : Process) (n1 n2 : Z) (r : Repository) :
  UpdateEmacsStraightRepo o pull1 p σ0 = (Returned n1, σ1) →
  (∀ r', pull2 r' = (Some NoErrAlreadyUpToDate, r')) →
  PlainOpen σ1 p = Ok r →
  head_is_latest r →
  UpdateEmacsStraightRepo o pull2 p σ1 = (Returned n2, σ2) →
  n2 = 0%Z ∧
  restartEmacsIsNeeded σ2 = restartEmacsIsNeeded σ1 ∧
  stdout σ2 = stdout σ1.
Proof.
  intros _ Hpull Hopen Hlatest. unfold UpdateEmacsStraightRepo. rewrite Hopen.
  destruct (Repository_Head r) as [head|] eqn:Hhead; [|done].
  destruct (Repository_Remote r "origin") as [rr|]; [|done].
  destruct (CreateOrModifyGitTag r TagName head) as [[tag err] r1] eqn:Htag.
  destruct err; [done|].
  apply CreateOrModifyGitTag_effect in Htag as [[-> Hnone]|(k & -> & [= -> ] & _)].
  { simpl in Hnone. subst tag.
    by destruct (PullGitChanges pull2 r) as [[? [?|]] ?]. }
  unfold PullGitChanges, Repository_Worktree.
  destruct (worktree (moved r k (Reference_Hash head))); [|done].
  rewrite Hpull.
  destruct (Repository_Head_moved r k head Hhead) as (head' & Hhead' & Heq).
  destruct (GetGitLog_nothing_new o (moved r k (Reference_Hash head))
              (NewHashReference k (Reference_Hash head)) head' 0 Hhead'
              (eq_sym Heq) (head_is_latest_moved _ _ _ Hhead Hlatest))
    as [err ->].
  simpl. by intros [= <- <-].
Qed.

Lemma head_is_latest_repo1_tagged : head_is_latest repo1_tagged.
Proof.
  intros head m c Hhead Hm (d & Hd & Hc) _.
  vm_compute in Hhead. injection Hhead as <-.
  vm_compute in Hm. injection Hm as <-.
  rewrite Hc. change (objects repo1_tagged) with history1 in Hd.
  unfold history1 in Hd.
  apply lookup_insert_Some in Hd as [[_ <-]|[_ Hd]]; [by vm_compute|].
  apply lookup_singleton_Some in Hd as [_ <-]. by vm_compute.
Qed.

Lemma second_run_counts_nothing_witness :
  UpdateEmacsStraightRepo plain pull_second pkg_path process0
    = (Returned 1, (UpdateEmacsStraightRepo plain pull_second pkg_path process0).2)
  ∧ PlainOpen (UpdateEmacsStraightRepo plain pull_second pkg_path process0).2 pkg_path
    = Ok repo1_tagged
  ∧ (0%Z = 0%Z ∧
     restartEmacsIsNeeded
       (UpdateEmacsStraightRepo plain pull_up_to_date pkg_path
          (UpdateEmacsStraightRepo plain pull_second pkg_path process0).2).2
     = restartEmacsIsNeeded
         (UpdateEmacsStraightRepo plain pull_second pkg_path process0).2 ∧
     stdout
       (UpdateEmacsStraightRepo plain pull_up_to_date pkg_path
          (UpdateEmacsStraightRepo plain pull_second pkg_path process0).2).2
     = stdout (UpdateEmacsStraightRepo plain pull_second pkg_path process0).2).
Proof.
  split; [vm_compute; reflexivity|]. split; [vm_compute; reflexivity|].
  exact (second_run_counts_nothing plain pull_second pull_up_to_date pkg_path
           process0
           (UpdateEmacsStraightRepo plain pull_second pkg_path process0).2
           (UpdateEmacsStraightRepo plain pull_up_to_date pkg_path
              (UpdateEmacsStraightRepo plain pull_second pkg_path process0).2).2
           1 0 repo1_tagged
           ltac:(vm_compute; reflexivity)
           (λ r', eq_refl)
           ltac:(vm_compute; reflexivity)
           head_is_latest_repo1_tagged
           ltac:(vm_compute; reflexivity)).
Defined.

(** ** The marker over repeated runs *)

Lemma reachable_mono objs objs' h h' :
  objs ⊆ objs' → reachable objs h h' → reachable objs' h h'.
Proof.
  intros Hsub Hr. induction Hr as [|x y z (d & Hd & Hy) _ IH]; [apply rtc_refl|].
  eapply rtc_l; [|exact IH]. exists d. split; [|done].
  by eapply lookup_weaken.
Qed.

Lemma marker_moved r h :
  marker (moved r marker_name h) = Some (NewHashReference marker_name h).
Proof. unfold marker, moved. simpl. apply lookup_insert_eq. Qed.

(** Setting the marker to the head keeps the repository in order. *)
Lemma repo_ok_moved r head :
  Repository_Head r = Ok head →
  repo_ok r →
  repo_ok (moved r marker_name (Reference_Hash head)).
Proof.
  intros Hhead [Hstored Hmarker].
  destruct (Repository_Head_moved r marker_name head Hhead) as (head' & Hhead' & Heq).
  split.
  - intros head'' Hh''. rewrite Hhead' in Hh''. injection Hh'' as <-.
    rewrite Heq. by apply Hstored.
  - intros tag Htag. rewrite marker_moved in Htag. injection Htag as <-.
    split_and!; [done | exact (Hstored head Hhead) |].
    intros head'' Hh''. rewrite Hhead' in Hh''. injection Hh'' as <-.
    rewrite Heq. apply rtc_refl.
Qed.

(** A fast-forward pull keeps it in order too. *)
Lemma repo_ok_pull pull r head :
  pull_fast_forward pull →
  Repository_Head r = Ok head →
  repo_ok r →
  repo_ok (pull r).2.
Proof.
  intros Hff Hhead [Hstored Hmarker].
  destruct (Hff r head Hhead) as (Hobjs & Hm & head' & Hhead' & Hst' & Hreach).
  split.
  - intros head'' Hh''. rewrite Hhead' in Hh''. injection Hh'' as <-.
    by apply Hst', Hstored.
  - intros tag Htag. rewrite Hm in Htag.
    destruct (Hmarker tag Htag) as (Hname & [d Hd] & Hanc).
    split_and!; [done | |].
    + exists d. by eapply lookup_weaken.
    + intros head'' Hh''. rewrite Hhead' in Hh''. injection Hh'' as <-.
      etrans; [exact Hreach|]. eapply reachable_mono; [exact Hobjs|].
      by apply Hanc.
Qed.

(** In a repository in order, [CreateOrModifyGitTag] for [TagName] either
    changes nothing or sets the marker to the target's hash. *)
Lemma CreateOrModifyGitTag_marker r ref res r1 :
  marker_ok r →
  CreateOrModifyGitTag r TagName ref = (res, r1) →
  r1 = r ∨ r1 = moved r marker_name (Reference_Hash ref).
Proof.
  intros Hmarker Htag.
  apply CreateOrModifyGitTag_effect in Htag
    as [[-> _]|(k & -> & _ & [->|(tag & Htag & ->)])]; [by left | by right |].
  right. by destruct (Hmarker tag Htag) as (-> & _).
Qed.

Lemma PullGitChanges_effect pull r res r2 :
  PullGitChanges pull r = (res, r2) → r2 = r ∨ r2 = (pull r).2.
Proof.
  unfold PullGitChanges, Repository_Worktree.
  destruct (worktree r); [|intros [= <- <-]; by left].
  destruct (pull r) as [[e|] r']; simpl; [destruct e|];
    intros [= <- <-]; by right.
Qed.

(** What one run of the worker leaves on disk: the other repositories as they
    were, and its own either untouched or with the marker on the head it
    found, pulled or not. *)
Lemma UpdateEmacsStraightRepo_disk o pull p σ e σ' r :
  PlainOpen σ p = Ok r →
  marker_ok r →
  UpdateEmacsStraightRepo o pull p σ = (e, σ') →
  (∀ q, q ≠ p → disk σ' !! q = disk σ !! q) ∧
  ∃ r', disk σ' !! p = Some r' ∧
    (r' = r ∨
     ∃ head r1,
       Repository_Head r = Ok head ∧
       (r1 = r ∨ r1 = moved r marker_name (Reference_Hash head)) ∧
       (r' = r1 ∨ r' = (pull r1).2)).
Proof.
  intros Hopen Hmarker. unfold UpdateEmacsStraightRepo. rewrite Hopen.
  assert (Hp : disk σ !! p = Some r).
  { unfold PlainOpen in Hopen. by destruct (disk σ !! p) as [?|]; simplify_eq. }
  assert (Hsame : (∀ q, q ≠ p → disk σ !! q = disk σ !! q) ∧
                  ∃ r', disk σ !! p = Some r' ∧
                    (r' = r ∨
                     ∃ head r1,
                       Repository_Head r = Ok head ∧
                       (r1 = r ∨ r1 = moved r marker_name (Reference_Hash head)) ∧
                       (r' = r1 ∨ r' = (pull r1).2))).
  { split; [done|]. exists r. split; [done | by left]. }
  destruct (Repository_Head r) as [head|] eqn:Hhead; [|by intros [= <- <-]].
  destruct (Repository_Remote r "origin") as [rr|]; [|by intros [= <- <-]].
  destruct (CreateOrModifyGitTag r TagName head) as [[tag err] r1] eqn:Htag.
  apply (CreateOrModifyGitTag_marker _ _ _ _ Hmarker) in Htag as Hr1.
  assert (Hset : ∀ r2,
            (r2 = r1 ∨ r2 = (pull r1).2) →
            (∀ q, q ≠ p → <[p := r2]> (disk σ) !! q = disk σ !! q) ∧
            ∃ r', <[p := r2]> (disk σ) !! p = Some r' ∧
              (r' = r ∨
               ∃ head0 r1',
                 Ok head = Ok head0 ∧
                 (r1' = r ∨ r1' = moved r marker_name (Reference_Hash head0)) ∧
                 (r' = r1' ∨ r' = (pull r1').2))).
  { intros r2 Hr2. split; [by intros q Hq; rewrite lookup_insert_ne|].
    exists r2. split; [apply lookup_insert_eq|]. right. by exists head, r1. }
  destruct err as [err|].
  { intros [= <- <-]. simpl. apply (Hset r1). by left. }
  destruct (PullGitChanges pull r1) as [[changed err] r2] eqn:Hpull.
  apply PullGitChanges_effect in Hpull.
  destruct err as [err|].
  { intros [= <- <-]. simpl. by apply (Hset r2). }
  destruct tag as [tag|].
  2:{ intros [= <- <-]. simpl. by apply (Hset r2). }
  destruct (GetGitLog o r2 tag 0) as [[l err] n].
  destruct (n >? 0)%Z.
  - destruct (rc_URLs rr); intros [= <- <-]; simpl; by apply (Hset r2).
  - intros [= <- <-]. simpl. by apply (Hset r2).
Qed.

Lemma marker_advances_refl r : marker_advances r r.
Proof. split; [done|]. intros tag Htag. exists tag. split; [done | apply rtc_refl]. Qed.

Lemma marker_advances_trans r1 r2 r3 :
  marker_advances r1 r2 → marker_advances r2 r3 → marker_advances r1 r3.
Proof.
  intros [Ho12 Hm12] [Ho23 Hm23]. split; [by etrans|].
  intros tag Htag. destruct (Hm12 tag Htag) as (tag2 & Htag2 & Hr12).
  destruct (Hm23 tag2 Htag2) as (tag3 & Htag3 & Hr23).
  exists tag3. split; [done|]. etrans; [exact Hr23|].
  by eapply reachable_mono.
Qed.

(** The two halves of a run: setting the marker, and pulling. *)
Lemma marker_step_moved r head r1 :
  repo_ok r →
  Repository_Head r = Ok head →
  r1 = r ∨ r1 = moved r marker_name (Reference_Hash head) →
  repo_ok r1 ∧ marker_advances r r1 ∧
  (∃ head1, Repository_Head r1 = Ok head1) ∧
  (marker r1 = marker r ∨
   marker r1 = Some (NewHashReference marker_name (Reference_Hash head))).
Proof.
  intros Hok Hhead [->| ->].
  - split_and!; [done | apply marker_advances_refl | by eexists | by left].
  - destruct (Repository_Head_moved r marker_name head Hhead) as (head' & Hhead' & _).
    split_and!; [by apply repo_ok_moved | | by eexists | right; apply marker_moved].
    split; [done|]. intros tag Htag. eexists. split; [apply marker_moved|].
    destruct Hok as [_ Hmarker]. destruct (Hmarker tag Htag) as (_ & _ & Hanc).
    exact (Hanc head Hhead).
Qed.

Lemma marker_step_pull pull r1 head1 r' :
  pull_fast_forward pull →
  repo_ok r1 →
  Repository_Head r1 = Ok head1 →
  r' = r1 ∨ r' = (pull r1).2 →
  repo_ok r' ∧ marker_advances r1 r' ∧ marker r' = marker r1.
Proof.
  intros Hff Hok Hhead [->| ->].
  - split_and!; [done | apply marker_advances_refl | done].
  - destruct (Hff r1 head1 Hhead) as (Hobjs & Hm & _).
    split_and!; [by eapply repo_ok_pull | | done].
    split; [done|]. intros tag Htag. exists tag. rewrite Hm.
    split; [done | apply rtc_refl].
Qed.

(** One run: the repository stays in order, the marker does not go back, and
    if it changed it is now on the head the run found. *)
Lemma sync_run_marker o pull p σ r :
  pull_fast_forward pull →
  PlainOpen σ p = Ok r →
  repo_ok r →
  (∀ q, q ≠ p →
        disk (UpdateEmacsStraightRepo o pull p σ).2 !! q = disk σ !! q) ∧
  ∃ r', PlainOpen (UpdateEmacsStraightRepo o pull p σ).2 p = Ok r' ∧
        repo_ok r' ∧ marker_advances r r' ∧
        (marker r' = marker r ∨
         ∃ head, Repository_Head r = Ok head ∧
                 marker r' = Some (NewHashReference marker_name (Reference_Hash head))).
Proof.
  intros Hff Hopen Hok.
  destruct (UpdateEmacsStraightRepo o pull p σ) as [e σ'] eqn:Hrun.
  destruct (UpdateEmacsStraightRepo_disk _ _ _ _ _ _ _ Hopen (proj2 Hok) Hrun)
    as (Hothers & r' & Hp & Hr').
  simpl. split; [done|]. exists r'.
  split; [by unfold PlainOpen; rewrite Hp|].
  destruct Hr' as [->|(head & r1 & Hhead & Hr1 & Hr')].
  { split_and!; [done | apply marker_advances_refl | by left]. }
  destruct (marker_step_moved r head r1 Hok Hhead Hr1)
    as (Hok1 & Hadv1 & [head1 Hhead1] & Hm1).
  destruct (marker_step_pull pull r1 head1 r' Hff Hok1 Hhead1 Hr')
    as (Hok' & Hadv' & Hm').
  split_and!; [done | by eapply marker_advances_trans |].
  rewrite Hm'. destruct Hm1 as [->|Hm1]; [by left|]. right. by exists head.
Qed.

(** C7, as stated, fails for a pull that brings the origin's tag along.  The
    repository is in order, with the marker on its head, commit 2.  The run
    sets the marker to the head (where it is), then the pull, which leaves
    the objects and the head alone, overwrites the marker with the origin's
    [Updated.At], on commit 1: after the run the marker has gone back to a
    commit from which the one it was on cannot be reached. *)
Lemma marker_regresses_on_fetched_tag :
  repo_ok repo1_marked
  ∧ marker repo1_marked = Some (NewHashReference marker_name 2%N)
  ∧ (∀ r, objects (pull_origin_tag r).2 = objects r)
  ∧ Repository_Head (pull_origin_tag repo1_marked).2 = Repository_Head repo1_marked
  ∧ (UpdateEmacsStraightRepo plain pull_origin_tag pkg_path process_marked).1
    = Returned 0
  ∧ disk (UpdateEmacsStraightRepo plain pull_origin_tag pkg_path process_marked).2
      !! pkg_path
    = Some (pull_origin_tag repo1_marked).2
  ∧ marker (pull_origin_tag repo1_marked).2
    = Some (NewHashReference marker_name 1%N)
  ∧ ¬ reachable (objects (pull_origin_tag repo1_marked).2) 1%N 2%N
  ∧ ¬ marker_advances repo1_marked (pull_origin_tag repo1_marked).2
  ∧ ¬ pull_fast_forward pull_origin_tag.
Proof.
  assert (Hhead : Repository_Head repo1_marked
                  = Ok (NewHashReference "refs/heads/main" 2%N))
    by (vm_compute; reflexivity).
  assert (Hno : ¬ reachable (objects (pull_origin_tag repo1_marked).2) 1%N 2%N).
  { intros Hr. by apply reachable_history1_root in Hr. }
  assert (Hadv : ¬ marker_advances repo1_marked (pull_origin_tag repo1_marked).2).
  { intros [_ Hm]. destruct (Hm _ eq_refl) as (tag' & Htag' & Hr).
    vm_compute in Htag'. injection Htag' as <-. by apply Hno. }
  split_and!.
  - split.
    + intros head Hh. rewrite Hhead in Hh. injection Hh as <-. by eexists.
    + intros tag Htag. vm_compute in Htag. injection Htag as <-.
      split_and!; [done|by eexists|].
      intros head Hh. rewrite Hhead in Hh. injection Hh as <-. apply rtc_refl.
  - reflexivity.
  - done.
  - vm_compute; reflexivity.
  - vm_compute; reflexivity.
  - vm_compute; reflexivity.
  - reflexivity.
  - exact Hno.
  - exact Hadv.
  - intros Hff. destruct (Hff repo1_marked _ Hhead) as (_ & Hm & _).
    vm_compute in Hm. discriminate Hm.
Qed.

(** C7 (amended): over any number of runs of the worker on the repository at
    [p], with pulls that only fast-forward and leave the marker reference
    alone, and a repository in order at the start (its
    head commit stored; its marker, if any, under the marker's name, on a
    stored commit, the head or an ancestor of it): the repository is in order
    after the runs, so the marker is on a stored commit that is the current
    head or an ancestor of it; no object was lost and the marker has the
    marker of the start among its ancestors; the marker is the one of the
    start or is on the commit that was head when an earlier run ended (at the
    start, for the first run); and no other repository on disk changed. *)
Theorem marker_over_runs
    (o : Output) (pulls : list PullEffect) (p : string) (σ : Process)
    (r : Repository) :
  Forall pull_fast_forward pulls →
  PlainOpen σ p = Ok r →
  repo_ok r →
  (∀ q, q ≠ p → disk (sync_runs o pulls p σ) !! q = disk σ !! q) ∧
  ∃ r', PlainOpen (sync_runs o pulls p σ) p = Ok r' ∧
        repo_ok r' ∧ marker_advances r r' ∧
        (marker r' = marker r ∨
         ∃ k rk headk,
           k < length pulls ∧
           PlainOpen (sync_runs o (take k pulls) p σ) p = Ok rk ∧
           Repository_Head rk = Ok headk ∧
           marker r' = Some (NewHashReference marker_name (Reference_Hash headk))).
Proof.
  intros Hff. revert σ r.
  induction Hff as [|pull pulls Hpull _ IH]; intros σ r Hopen Hok; simpl.
  { split; [done|]. exists r.
    split_and!; [done | done | apply marker_advances_refl | by left]. }
  destruct (sync_run_marker o pull p σ r Hpull Hopen Hok)
    as (Hothers1 & r1 & Hopen1 & Hok1 & Hadv1 & Hm1).
  destruct (IH _ r1 Hopen1 Hok1) as (Hothers & r' & Hopen' & Hok' & Hadv' & Hm').
  split.
  { intros q Hq. by rewrite Hothers, Hothers1. }
  exists r'. split_and!; [done | done | by eapply marker_advances_trans |].
  destruct Hm' as [Hm'|(k & rk & headk & Hk & Hopenk & Hheadk & Hm')].
  - rewrite Hm'. destruct Hm1 as [->|(head & Hhead & ->)]; [by left|].
    right. exists 0, r, head. split_and!; [lia | done | done | done].
  - right. exists (S k), rk, headk. split_and!; [lia | done | done | done].
Qed.

Lemma pull_fast_forward_noop e : pull_fast_forward (λ r, (e, r)).
Proof.
  intros r head Hhead. simpl. split_and!; [done | done |].
  exists head. split_and!; [done | done | apply rtc_refl].
Qed.

Lemma repo_ok_repo0 : repo_ok repo0.
Proof.
  split.
  - intros head Hhead. vm_compute in Hhead. injection Hhead as <-. by eexists.
  - by intros tag Htag.
Qed.

Lemma resolveReference_hash k r ref :
  Reference_Type ref ≠ SymbolicReference → resolveReference k r ref = Ok ref.
Proof. intros Hn. destruct k; simpl; by rewrite decide_False. Qed.

Lemma resolveReference_symbolic k r ref t :
  Reference_Type ref = SymbolicReference →
  Storer_Reference r (Reference_Target ref) = Ok t →
  resolveReference (S k) r ref = resolveReference k r t.
Proof. intros Hs Ht. simpl. by rewrite decide_True, Ht. Qed.

Lemma Repository_Head_read r head :
  Repository_Head r = Ok head → ref_read_err r HEAD = None.
Proof.
  unfold Repository_Head, ResolveReference, Storer_Reference.
  by destruct (ref_read_err r HEAD).
Qed.

Lemma pull_fast_forward_pull_ff : pull_fast_forward pull_ff.
Proof.
  intros r head Hhead. unfold pull_ff. rewrite Hhead.
  case_decide as Hc.
  2:{ split_and!; [done | done |].
      exists head. split_and!; [done | done | apply rtc_refl]. }
  destruct Hc as (Hh & H2 & HH & Hmain).
  apply Repository_Head_read in Hhead as Hread.
  match goal with |- context [(None, ?x)] => set (r' := x) end.
  change ((None, r').2) with r'.
  assert (Hobjs : objects r' = objects r ∪ history1) by done.
  assert (Hrefs : refs r' = <["refs/heads/main" :=
                               NewHashReference "refs/heads/main" 2%N]> (refs r))
    by done.
  assert (Hnew : objects r' !! 2%N = Some (commit_at 200 "second" [1%N])).
  { rewrite Hobjs, lookup_union_r by done. reflexivity. }
  assert (HsH : Storer_Reference r' HEAD
                = Ok (NewSymbolicReference HEAD "refs/heads/main")).
  { unfold Storer_Reference.
    change (ref_read_err r' HEAD) with (ref_read_err r HEAD).
    by rewrite Hread, Hrefs, lookup_insert_ne, HH. }
  assert (Hsm : Storer_Reference r' "refs/heads/main"
                = Ok (NewHashReference "refs/heads/main" 2%N)).
  { unfold Storer_Reference.
    change (ref_read_err r' "refs/heads/main")
      with (ref_read_err r "refs/heads/main").
    by rewrite Hmain, Hrefs, lookup_insert_eq. }
  split_and!.
  - rewrite Hobjs. apply map_union_subseteq_l.
  - unfold marker. by rewrite Hrefs, lookup_insert_ne.
  - exists (NewHashReference "refs/heads/main" 2%N). split_and!.
    + unfold Repository_Head, ResolveReference. rewrite HsH.
      rewrite (resolveReference_symbolic _ r'
                 (NewSymbolicReference HEAD "refs/heads/main") _ eq_refl Hsm).
      by apply resolveReference_hash.
    + intros _. by eexists.
    + rewrite Hh. apply rtc_once. eexists. split; [exact Hnew|]. by left.
Qed.

Lemma marker_over_runs_witness :
  PlainOpen process0 pkg_path = Ok repo0 ∧
  (∀ q, q ≠ pkg_path →
     disk (sync_runs plain [pull_ff; pull_up_to_date] pkg_path process0) !! q
     = disk process0 !! q) ∧
  ∃ r', PlainOpen (sync_runs plain [pull_ff; pull_up_to_date] pkg_path process0)
          pkg_path = Ok r' ∧
        repo_ok r' ∧ marker_advances repo0 r' ∧
        (marker r' = marker repo0 ∨
         ∃ k rk headk,
           k < 2 ∧
           PlainOpen (sync_runs plain (take k [pull_ff; pull_up_to_date])
                        pkg_path process0) pkg_path = Ok rk ∧
           Repository_Head rk = Ok headk ∧
           marker r' = Some (NewHashReference marker_name (Reference_Hash headk))).
Proof.
  split; [reflexivity|].
  exact (marker_over_runs plain [pull_ff; pull_up_to_date] pkg_path process0 repo0
           (Forall_cons_2 _ _ _ pull_fast_forward_pull_ff
              (Forall_cons_2 _ _ _ (pull_fast_forward_noop _) (Forall_nil_2 _)))
           eq_refl repo_ok_repo0).
Defined.

(** The two runs of the witness: the first creates the marker on commit 1
    and pulls commit 2, the second moves the marker to commit 2. *)
Example marker_after_two_runs :
  (marker <$> disk (sync_runs plain [pull_ff] pkg_path process0) !! pkg_path)
    = Some (Some (NewHashReference marker_name 1%N))
  ∧ (Repository_Head <$> disk (sync_runs plain [pull_ff] pkg_path process0)
                           !! pkg_path)
    = Some (Ok (NewHashReference "refs/heads/main" 2%N))
  ∧ (marker <$> disk (sync_runs plain [pull_ff; pull_up_to_date] pkg_path process0)
                  !! pkg_path)
    = Some (Some (NewHashReference marker_name 2%N)).
Proof. split_and!; vm_compute; reflexivity. Qed.

(** ** [CreateOrModifyGitTag]: what it leaves alone, and calling it again *)

Lemma Storer_Reference_NotFound r n :
  Storer_Reference r n = Err ErrReferenceNotFound →
  ref_read_err r n = Some ErrReferenceNotFound ∨
  (ref_read_err r n = None ∧ refs r !! n = None).
Proof.
  unfold Storer_Reference.
  destruct (ref_read_err r n) as [e|]; [intros [= ->]; by left|].
  destruct (refs r !! n); [done|]. by right.
Qed.

(** X1: [CreateOrModifyGitTag] changes nothing but references: the objects,
    the remotes and the working tree stay; when it returns an error the
    repository is exactly as before; and a reference is the same afterwards
    unless its name is the marker's or the name of the reference that
    [r.Tag(t)] found, the one stored under [path.Join("refs", "tags", t)]. *)
Theorem CreateOrModifyGitTag_frame r t ref :
  objects (CreateOrModifyGitTag r t ref).2 = objects r ∧
  remotes (CreateOrModifyGitTag r t ref).2 = remotes r ∧
  worktree (CreateOrModifyGitTag r t ref).2 = worktree r ∧
  ((CreateOrModifyGitTag r t ref).1.2 ≠ None →
   (CreateOrModifyGitTag r t ref).2 = r) ∧
  (∀ k, k ≠ NewTagReferenceName TagName →
        (∀ tag, refs r !! path_Join ["refs"; "tags"; t] = Some tag →
                k ≠ Reference_Name tag) →
        refs (CreateOrModifyGitTag r t ref).2 !! k = refs r !! k).
Proof.
  destruct (CreateOrModifyGitTag r t ref) as [res r1] eqn:E.
  apply CreateOrModifyGitTag_effect in E as [[-> Hn] | (k & -> & -> & Hk)];
    cbn [fst snd]; split_and!; try done.
  intros k' Hmark Htag. unfold moved. rewrite set_refs_insert_lookup.
  destruct (decide (k = k')) as [<-|]; [|done].
  destruct Hk as [->|(tag & Htag' & ->)]; [done|].
  by destruct (Htag tag Htag').
Qed.

(** The name that [r.Tag] looks up is the cleaned one: called with
    [../heads/main] the function finds the branch and moves it. *)
Example CreateOrModifyGitTag_cleaned_name :
  (CreateOrModifyGitTag repo1 "../heads/main"
     (NewHashReference "refs/tags/Updated.At" 1%N)).1
  = (Some (NewHashReference "refs/heads/main" 1%N), None)
  ∧ refs (CreateOrModifyGitTag repo1 "../heads/main"
            (NewHashReference "refs/tags/Updated.At" 1%N)).2
      !! "refs/heads/main"
    = Some (NewHashReference "refs/heads/main" 1%N).
Proof. split; vm_compute; reflexivity. Qed.

(** X2: setting the marker is idempotent: when [CreateOrModifyGitTag] has
    set [TagName] to a reference, the same call on the repository it left
    succeeds again, returns the same reference and changes nothing. *)
Theorem CreateOrModifyGitTag_again r ref tag r1 :
  CreateOrModifyGitTag r TagName ref = ((Some tag, None), r1) →
  CreateOrModifyGitTag r1 TagName ref = ((Some tag, None), r1).
Proof.
  unfold CreateOrModifyGitTag.
  destruct (Repository_Tag r TagName) as [tag0|e] eqn:Htag.
  - apply Repository_Tag_Ok in Htag as [Hread Hlook].
    unfold Storer_SetReference; simpl.
    destruct (ref_write_err r (Reference_Name tag0)) as [e|] eqn:Hw; [done|].
    intros [= <- <-].
    fold (moved r (Reference_Name tag0) (Reference_Hash ref)).
    rewrite path_Join_TagName in Hread, Hlook.
    unfold Repository_Tag. rewrite path_Join_TagName, Storer_Reference_moved.
    destruct (decide (Reference_Name tag0 = NewTagReferenceName TagName)) as [Heq|Hne].
    + rewrite Hread. simpl. rewrite Hw. simpl.
      f_equal; unfold moved, set_refs; simpl; by rewrite insert_insert_eq.
    + unfold Storer_Reference. rewrite Hread, Hlook. simpl. rewrite Hw.
      f_equal; unfold moved, set_refs; simpl; by rewrite insert_insert_eq.
  - destruct (decide (e = ErrTagNotFound)) as [->|Hne];
      [|by destruct e].
    unfold Repository_CreateTag.
    destruct (Storer_Reference r (NewTagReferenceName TagName)) as [?|e] eqn:Hst;
      [done|].
    destruct (decide (e = ErrReferenceNotFound)) as [->|Hne]; [|by destruct e].
    unfold Storer_SetReference; simpl.
    destruct (ref_write_err r (NewTagReferenceName TagName)) as [e|] eqn:Hw;
      [done|].
    intros [= <- <-].
    fold (moved r (NewTagReferenceName TagName) (Reference_Hash ref)).
    unfold Repository_Tag. rewrite path_Join_TagName.
    rewrite !Storer_Reference_moved.
    rewrite decide_True by done.
    apply Storer_Reference_NotFound in Hst as [Hr|[Hr _]]; rewrite Hr; simpl.
    + rewrite Hw.
      f_equal; unfold moved, set_refs; simpl; by rewrite insert_insert_eq.
    + rewrite Hw.
      f_equal; unfold moved, set_refs; simpl; by rewrite insert_insert_eq.
Qed.

Lemma CreateOrModifyGitTag_again_witness :
  CreateOrModifyGitTag repo0 TagName (NewHashReference "refs/heads/main" 1%N)
  = ((Some (NewHashReference "refs/tags/Updated.At" 1%N), None),
     moved repo0 "refs/tags/Updated.At" 1%N) ∧
  CreateOrModifyGitTag (moved repo0 "refs/tags/Updated.At" 1%N) TagName
    (NewHashReference "refs/heads/main" 1%N)
  = ((Some (NewHashReference "refs/tags/Updated.At" 1%N), None),
     moved repo0 "refs/tags/Updated.At" 1%N).
Proof.
  assert (H : CreateOrModifyGitTag repo0 TagName
                (NewHashReference "refs/heads/main" 1%N)
              = ((Some (NewHashReference "refs/tags/Updated.At" 1%N), None),
                 moved repo0 "refs/tags/Updated.At" 1%N)) by reflexivity.
  split; [exact H|]. exact (CreateOrModifyGitTag_again _ _ _ _ H).
Defined.

(** X3: with a name that [r.Tag] does not look up under
    [refs/tags/Updated.At] the function works once.  When the tag [t] is
    missing it creates [TagName], not [t]; on the repository it left, [t] is
    still missing and [TagName] is taken, so the same call returns
    [ErrTagExists] and moves nothing. *)
Theorem CreateOrModifyGitTag_other_name_twice r t ref ref' tag r1 :
  Repository_Tag r t = Err ErrTagNotFound →
  path_Join ["refs"; "tags"; t] ≠ NewTagReferenceName TagName →
  ref_read_err r (NewTagReferenceName TagName) = None →
  CreateOrModifyGitTag r t ref = ((Some tag, None), r1) →
  Repository_Tag r1 t = Err ErrTagNotFound ∧
  Repository_Tag r1 TagName = Ok tag ∧
  CreateOrModifyGitTag r1 t ref' = ((None, Some ErrTagExists), r1).
Proof.
  intros Htag Hne Hread. unfold CreateOrModifyGitTag at 1. rewrite Htag.
  unfold Repository_CreateTag, Storer_Reference. rewrite Hread.
  destruct (refs r !! NewTagReferenceName TagName) eqn:Hlook; [done|].
  unfold Storer_SetReference; simpl.
  destruct (ref_write_err r (NewTagReferenceName TagName)) as [e|]; [done|].
  intros [= <- <-].
  fold (moved r (NewTagReferenceName TagName) (Reference_Hash ref)).
  assert (Htag1 : Repository_Tag
                    (moved r (NewTagReferenceName TagName) (Reference_Hash ref)) t
                  = Err ErrTagNotFound).
  { unfold Repository_Tag. rewrite Storer_Reference_moved.
    rewrite decide_False by done. exact Htag. }
  assert (Hst : Storer_Reference
                  (moved r (NewTagReferenceName TagName) (Reference_Hash ref))
                  (NewTagReferenceName TagName)
                = Ok (NewHashReference (NewTagReferenceName TagName)
                                       (Reference_Hash ref))).
  { rewrite Storer_Reference_moved, decide_True by done. by rewrite Hread. }
  split_and!; [done| |].
  - unfold Repository_Tag. by rewrite path_Join_TagName, Hst.
  - unfold CreateOrModifyGitTag. rewrite Htag1.
    unfold Repository_CreateTag. by rewrite Hst.
Qed.

Lemma CreateOrModifyGitTag_other_name_twice_witness :
  Repository_Tag repo0 "Seen" = Err ErrTagNotFound ∧
  CreateOrModifyGitTag repo0 "Seen" (NewHashReference "refs/heads/main" 1%N)
  = ((Some (NewHashReference "refs/tags/Updated.At" 1%N), None),
     moved repo0 "refs/tags/Updated.At" 1%N) ∧
  Repository_Tag (moved repo0 "refs/tags/Updated.At" 1%N) "Seen"
  = Err ErrTagNotFound ∧
  CreateOrModifyGitTag (moved repo0 "refs/tags/Updated.At" 1%N) "Seen"
    (NewHashReference "refs/heads/main" 1%N)
  = ((None, Some ErrTagExists), moved repo0 "refs/tags/Updated.At" 1%N).
Proof.
  assert (H : CreateOrModifyGitTag repo0 "Seen"
                (NewHashReference "refs/heads/main" 1%N)
              = ((Some (NewHashReference "refs/tags/Updated.At" 1%N), None),
                 moved repo0 "refs/tags/Updated.At" 1%N)) by reflexivity.
  assert (Ht : Repository_Tag repo0 "Seen" = Err ErrTagNotFound) by reflexivity.
  assert (Hne : path_Join ["refs"; "tags"; "Seen"] ≠ NewTagReferenceName TagName)
    by (vm_compute; discriminate).
  pose proof (CreateOrModifyGitTag_other_name_twice repo0 "Seen" _
                (NewHashReference "refs/heads/main" 1%N) _ _
                Ht Hne eq_refl H) as (H1 & _ & H2).
  split_and!; [exact Ht|exact H|exact H1|exact H2].
Defined.

(** X4: setting the marker to the head leaves the head where it is: after
    [CreateOrModifyGitTag r t head], whatever it returned, [r.Head()] still
    resolves, and to the same commit. *)
Theorem CreateOrModifyGitTag_keeps_head r t head :
  Repository_Head r = Ok head →
  ∃ head', Repository_Head (CreateOrModifyGitTag r t head).2 = Ok head' ∧
           Reference_Hash head' = Reference_Hash head.
Proof.
  intros Hhead.
  destruct (CreateOrModifyGitTag r t head) as [res r1] eqn:E.
  apply CreateOrModifyGitTag_effect in E as [[-> _] | (k & -> & _ & _)];
    cbn [snd].
  - by exists head.
  - by apply Repository_Head_moved.
Qed.

Lemma CreateOrModifyGitTag_keeps_head_witness :
  Repository_Head repo0 = Ok (NewHashReference "refs/heads/main" 1%N) ∧
  ∃ head',
    Repository_Head
      (CreateOrModifyGitTag repo0 TagName
         (NewHashReference "refs/heads/main" 1%N)).2 = Ok head' ∧
    Reference_Hash head' = 1%N.
Proof.
  assert (H : Repository_Head repo0
              = Ok (NewHashReference "refs/heads/main" 1%N))
    by (vm_compute; reflexivity).
  split; [exact H|].
  exact (CreateOrModifyGitTag_keeps_head repo0 TagName _ H).
Defined.

(** ** [GetGitLog]: the count and the text, and the one-second offset *)




(** X6: a commit made less than one second after the marker's commit is
    never counted.  When that is so of every stored commit below the head,
    [GetGitLog] returns no text and leaves [*n], wherever the head is: what
    arrived in the same second as the marker's commit goes unseen. *)
Theorem GetGitLog_within_a_second o r ref m n :
  Repository_CommitObject r (Reference_Hash ref) = Ok m →
  (∀ head c,
     Repository_Head r = Ok head →
     stored (objects r) c →
     reachable (objects r) (Reference_Hash head) (c_Hash c) →
     (unix_nano (sig_When (c_Committer c))
        < unix_nano (sig_When (c_Committer m)) + 1000000000)%Z) →
  ∃ err, GetGitLog o r ref n = (("", err), n).
Proof.
  intros Hm Hnear. unfold GetGitLog. rewrite Hm.
  unfold Repository_Log.
  destruct (Repository_Head r) as [head|e] eqn:Hhead; [|by eexists].
  unfold Repository_CommitObject.
  destruct (objects r !! Reference_Hash head) as [d|] eqn:Hd; [|by eexists].
  destruct (NewCommitPreorderIter r (decode (Reference_Hash head) d))
    as [cs e] eqn:Hit.
  pose proof (NewCommitPreorderIter_sound _ _ _ _ _ Hd Hit) as Hcs.
  unfold CommitLimitIter. cbn [fst snd].
  replace (filter _ cs) with (@nil Commit); [by eexists|].
  symmetry. apply filter_none.
  intros c Hc. destruct (Hcs c Hc) as [Hst Hr].
  specialize (Hnear head c eq_refl Hst Hr).
  unfold Time_Before, Time_Add, Second. simpl.
  intros Hb. apply Z.ltb_ge in Hb. lia.
Qed.

Lemma stored_history_same_second c :
  stored history_same_second c →
  unix_nano (sig_When (c_Committer c)) = 100000000000%Z.
Proof.
  intros (d & Hd & ->). unfold history_same_second in Hd.
  apply lookup_insert_Some in Hd as [[_ <-]|[_ Hd]]; [done|].
  by apply lookup_singleton_Some in Hd as [_ <-].
Qed.

Lemma GetGitLog_within_a_second_witness :
  Repository_Head repo_same_second = Ok (NewHashReference "refs/heads/main" 2%N) ∧
  marker repo_same_second = Some (NewHashReference "refs/tags/Updated.At" 1%N) ∧
  ∃ err, GetGitLog plain repo_same_second
           (NewHashReference "refs/tags/Updated.At" 1%N) 0 = (("", err), 0%Z).
Proof.
  split_and!; [vm_compute; reflexivity|reflexivity|].
  apply (GetGitLog_within_a_second plain repo_same_second
           (NewHashReference "refs/tags/Updated.At" 1%N)
           (decode 1%N (commit_at 100 "first" [])) 0 eq_refl).
  intros head c _ Hst _. rewrite (stored_history_same_second c Hst).
  reflexivity.
Defined.

(** With clocks that follow the history, the log since one second after the
    marker's commit [m] is the list of the commits below the head that are
    not below the marker. *)
Lemma Repository_Log_new_commits r h head m :
  Repository_Head r = Ok head →
  history_complete (objects r) (Reference_Hash head) →
  (∀ c, stored (objects r) c →
        reachable (objects r) h (c_Hash c) →
        (unix_nano (sig_When (c_Committer c))
           < unix_nano (sig_When (c_Committer m)) + 1000000000)%Z) →
  (∀ c, stored (objects r) c →
        reachable (objects r) (Reference_Hash head) (c_Hash c) →
        ¬ reachable (objects r) h (c_Hash c) →
        (unix_nano (sig_When (c_Committer m)) + 1000000000
           ≤ unix_nano (sig_When (c_Committer c)))%Z) →
  ∃ new : list Commit,
    Repository_Log r (Time_Add (sig_When (c_Committer m)) Second)
    = Ok (new, None) ∧
    NoDup (hashes new) ∧
    length new ≤ size (objects r) ∧
    ∀ c, c ∈ new ↔
         stored (objects r) c ∧
         reachable (objects r) (Reference_Hash head) (c_Hash c) ∧
         ¬ reachable (objects r) h (c_Hash c).
Proof.
  intros Hhead Hall Hold Hnew.
  set (since := Time_Add (sig_When (c_Committer m)) Second).
  destruct (Repository_Log_since r head since Hhead Hall) as (cs & Hlog & Hnd & Hcs).
  exists cs. split_and!; [done|done| |].
  - apply stored_length_le; [done|]. intros c Hc. by apply Hcs in Hc as [? _].
  - intros c. rewrite Hcs. subst since. unfold Time_Add, Second. simpl.
    split.
    + intros (Hst & Hr & Ht). split_and!; [done|done|].
      intros Hr'. specialize (Hold c Hst Hr'). lia.
    + intros (Hst & Hr & Hn). split_and!; [done|done|].
      by apply Hnew.
Qed.

(** X7: on a repository whose marker commit [m] can be read, whose head
    resolves and whose history below the head is all in the object store,
    and whose committer clocks follow the history, the count is the number
    of new commits.  If nothing at or below [m] is a second or more later
    than [m], and every commit below the head that is not below the marker
    is, then [GetGitLog] handles, once each, exactly the stored commits
    reachable from the head and not from the marker, and returns a nil
    error.  (Where the history has a gap the walk ends in an error
    instead.) *)
Theorem GetGitLog_new_commits o r ref head m n :
  Repository_CommitObject r (Reference_Hash ref) = Ok m →
  Repository_Head r = Ok head →
  history_complete (objects r) (Reference_Hash head) →
  (- 2 ^ 63 ≤ n)%Z →
  (n + Z.of_nat (size (objects r)) < 2 ^ 63)%Z →
  (∀ c, stored (objects r) c →
        reachable (objects r) (Reference_Hash ref) (c_Hash c) →
        (unix_nano (sig_When (c_Committer c))
           < unix_nano (sig_When (c_Committer m)) + 1000000000)%Z) →
  (∀ c, stored (objects r) c →
        reachable (objects r) (Reference_Hash head) (c_Hash c) →
        ¬ reachable (objects r) (Reference_Hash ref) (c_Hash c) →
        (unix_nano (sig_When (c_Committer m)) + 1000000000
           ≤ unix_nano (sig_When (c_Committer c)))%Z) →
  ∃ new : list Commit,
    GetGitLog o r ref n = ((render o new, None), (n + Z.of_nat (length new))%Z) ∧
    NoDup (hashes new) ∧
    ∀ c, c ∈ new ↔
         stored (objects r) c ∧
         reachable (objects r) (Reference_Hash head) (c_Hash c) ∧
         ¬ reachable (objects r) (Reference_Hash ref) (c_Hash c).
Proof.
  intros Hm Hhead Hall Hlo Hhi Hold Hnew.
  destruct (Repository_Log_new_commits r _ head m Hhead Hall Hold Hnew)
    as (cs & Hlog & Hnd & Hlen & Hcs).
  exists cs. split_and!; [|done|done].
  unfold GetGitLog. rewrite Hm, Hlog. cbn [fst snd].
  by rewrite ForEach_GetGitLog_f by lia.
Qed.

Lemma GetGitLog_new_commits_witness :
  Repository_Head repo1_tagged = Ok (NewHashReference "refs/heads/main" 2%N) ∧
  ∃ new : list Commit,
    GetGitLog plain repo1_tagged (NewHashReference "refs/tags/Updated.At" 1%N) 0
      = ((render plain new, None), (0 + Z.of_nat (length new))%Z) ∧
    NoDup (hashes new) ∧
    ∀ c, c ∈ new ↔
         stored history1 c ∧ reachable history1 2%N (c_Hash c) ∧
         ¬ reachable history1 1%N (c_Hash c).
Proof.
  split; [reflexivity|].
  apply (GetGitLog_new_commits plain repo1_tagged
           (NewHashReference "refs/tags/Updated.At" 1%N)
           (NewHashReference "refs/heads/main" 2%N)
           (decode 1%N (commit_at 100 "first" [])) 0
           eq_refl eq_refl history1_complete
           ltac:(lia) ltac:(vm_compute; reflexivity)).
  - intros c Hst Hr. apply reachable_history1_root in Hr.
    apply stored_history1 in Hst as [->| ->]; [reflexivity|discriminate Hr].
  - intros c Hst _ Hn.
    apply stored_history1 in Hst as [->| ->]; [|by cbv].
    destruct Hn. apply rtc_refl.
Defined.

(** ** The worker: its fatal exits, what it leaves alone, what it prints *)

Lemma set_repo_same σ p r : disk σ !! p = Some r → set_repo σ p r = σ.
Proof.
  intros Hp. destruct σ as [d f out]. unfold set_repo; simpl in *.
  by rewrite insert_id.
Qed.

Lemma PlainOpen_Ok σ p r : PlainOpen σ p = Ok r → disk σ !! p = Some r.
Proof. unfold PlainOpen. destruct (disk σ !! p); by intros [= ->]. Qed.

Lemma CreateOrModifyGitTag_worktree r t ref res r1 :
  CreateOrModifyGitTag r t ref = (res, r1) → worktree r1 = worktree r.
Proof.
  intros E. by apply CreateOrModifyGitTag_effect in E as [[-> _]|(k & -> & _)].
Qed.

Lemma CreateOrModifyGitTag_error_unchanged r t ref res err r1 :
  CreateOrModifyGitTag r t ref = ((res, Some err), r1) → r1 = r.
Proof.
  intros E. apply CreateOrModifyGitTag_effect in E as [[-> _]|(k & _ & [=] & _)].
  done.
Qed.

Lemma PullGitChanges_error pull r res err r2 :
  PullGitChanges pull r = ((res, Some err), r2) →
  err = ErrIsBareRepository ∧ worktree r = false ∧ r2 = r.
Proof.
  unfold PullGitChanges, Repository_Worktree.
  destruct (worktree r); [|by intros [= <- <- <-]].
  destruct (pull r) as [[e|] r']; [|done]. by destruct e.
Qed.

(** The worker changes no repository but its own. *)
Lemma UpdateEmacsStraightRepo_others o pull p σ q :
  q ≠ p →
  disk (UpdateEmacsStraightRepo o pull p σ).2 !! q = disk σ !! q.
Proof.
  intros Hq. unfold UpdateEmacsStraightRepo.
  repeat case_match; cbn [snd disk set_repo]; try done;
    by rewrite lookup_insert_ne.
Qed.

(** X8: the worker ends the process with [log.Fatal] for five reasons only:
    the repository does not open, its head does not resolve, it has no
    [origin] remote, the marker cannot be written, or it has no working
    tree.  An error of the pull itself or of [GetGitLog] is never fatal.  In
    the first four cases the process and the disk are exactly as before; in
    the last the marker has been set and nothing else. *)
Theorem UpdateEmacsStraightRepo_fatal_causes o pull p σ err σ' :
  UpdateEmacsStraightRepo o pull p σ = (Fatal err, σ') →
  (σ' = σ ∧
   (PlainOpen σ p = Err err ∨
    ∃ r, PlainOpen σ p = Ok r ∧
      (Repository_Head r = Err err ∨
       ∃ head, Repository_Head r = Ok head ∧
         (Repository_Remote r "origin" = Err err ∨
          (CreateOrModifyGitTag r TagName head).1.2 = Some err)))) ∨
  (err = ErrIsBareRepository ∧
   ∃ r head, PlainOpen σ p = Ok r ∧ Repository_Head r = Ok head ∧
     is_Some (remotes r !! "origin") ∧
     worktree r = false ∧
     σ' = set_repo σ p (CreateOrModifyGitTag r TagName head).2).
Proof.
  unfold UpdateEmacsStraightRepo.
  destruct (PlainOpen σ p) as [r|e] eqn:Hopen; [|intros [= <- <-]; left; naive_solver].
  destruct (Repository_Head r) as [head|e] eqn:Hhead;
    [|intros [= <- <-]; left; naive_solver].
  destruct (Repository_Remote r "origin") as [rr|e] eqn:Hrr;
    [|intros [= <- <-]; left; naive_solver].
  destruct (CreateOrModifyGitTag r TagName head) as [[tag [e|]] r1] eqn:Htag.
  { intros [= <- <-]. left.
    assert (Herr : (CreateOrModifyGitTag r TagName head).1.2 = Some e)
      by (by rewrite Htag).
    apply CreateOrModifyGitTag_error_unchanged in Htag as ->.
    split; [by apply set_repo_same, PlainOpen_Ok|naive_solver]. }
  destruct (PullGitChanges pull r1) as [[changed [e|]] r2] eqn:Hpull.
  { intros [= <- <-]. right.
    apply PullGitChanges_error in Hpull as (-> & Hw & ->).
    split; [done|]. exists r, head. split_and!; try done.
    - unfold Repository_Remote in Hrr.
      destruct (remotes r !! "origin"); [by eexists|done].
    - by rewrite <-(CreateOrModifyGitTag_worktree _ _ _ _ _ Htag).
    - by rewrite Htag. }
  destruct tag as [tag|]; [|done].
  destruct (GetGitLog o r2 tag 0) as [[l e] n].
  destruct (n >? 0)%Z; [|done]. by destruct (rc_URLs rr).
Qed.

Lemma UpdateEmacsStraightRepo_fatal_causes_witness :
  UpdateEmacsStraightRepo plain pull_up_to_date pkg_path process_bare
  = (Fatal ErrIsBareRepository,
     set_repo process_bare pkg_path (moved (bare repo0) "refs/tags/Updated.At" 1%N)) ∧
  ErrIsBareRepository = ErrIsBareRepository ∧
  ∃ r head,
    PlainOpen process_bare pkg_path = Ok r ∧ Repository_Head r = Ok head ∧
    is_Some (remotes r !! "origin") ∧
    worktree r = false ∧
    set_repo process_bare pkg_path (moved (bare repo0) "refs/tags/Updated.At" 1%N)
    = set_repo process_bare pkg_path (CreateOrModifyGitTag r TagName head).2.
Proof.
  assert (H : UpdateEmacsStraightRepo plain pull_up_to_date pkg_path process_bare
              = (Fatal ErrIsBareRepository,
                 set_repo process_bare pkg_path
                   (moved (bare repo0) "refs/tags/Updated.At" 1%N)))
    by (vm_compute; reflexivity).
  split; [exact H|].
  destruct (UpdateEmacsStraightRepo_fatal_causes _ _ _ _ _ _ H)
    as [[_ Hcause]|Hbare]; [|exact Hbare].
  exfalso.
  destruct Hcause as [Hopen|(r & Hopen & Hcause)]; [discriminate Hopen|].
  injection Hopen as <-.
  destruct Hcause as [Hhead|(head & Hhead & Hcause)];
    [vm_compute in Hhead; discriminate Hhead|].
  vm_compute in Hhead. injection Hhead as <-.
  destruct Hcause as [Hrr|Htag]; [discriminate Hrr|discriminate Htag].
Defined.

(** What the worker does to the disk: nothing, or it replaces the repository
    it opened at [p]. *)
Lemma UpdateEmacsStraightRepo_disk_cases o pull p σ :
  disk (UpdateEmacsStraightRepo o pull p σ).2 = disk σ ∨
  ∃ r r', disk σ !! p = Some r ∧
          disk (UpdateEmacsStraightRepo o pull p σ).2 = <[p := r']> (disk σ).
Proof.
  unfold UpdateEmacsStraightRepo.
  destruct (PlainOpen σ p) as [r|e] eqn:Hopen; [|by left].
  apply PlainOpen_Ok in Hopen.
  repeat case_match; cbn [snd disk set_repo]; eauto.
Qed.

(** X9: the worker keeps to its own repository.  Every other path on disk
    holds what it held, no path appears or disappears, the restart flag is
    never lowered, and standard output only grows. *)
Theorem UpdateEmacsStraightRepo_frame o pull p σ :
  (∀ q, q ≠ p →
        disk (UpdateEmacsStraightRepo o pull p σ).2 !! q = disk σ !! q) ∧
  (∀ q, is_Some (disk (UpdateEmacsStraightRepo o pull p σ).2 !! q)
        ↔ is_Some (disk σ !! q)) ∧
  (restartEmacsIsNeeded σ = true →
   restartEmacsIsNeeded (UpdateEmacsStraightRepo o pull p σ).2 = true) ∧
  stdout σ `prefix_of` stdout (UpdateEmacsStraightRepo o pull p σ).2.
Proof.
  split_and!.
  - intros q Hq. by apply UpdateEmacsStraightRepo_others.
  - intros q.
    destruct (UpdateEmacsStraightRepo_disk_cases o pull p σ)
      as [->|(r & r' & Hp & ->)]; [done|].
    destruct (decide (q = p)) as [->|Hq].
    + rewrite lookup_insert_eq, Hp. split; by eexists.
    + by rewrite lookup_insert_ne.
  - intros Hflag.
    destruct (UpdateEmacsStraightRepo o pull p σ) as [e σ'] eqn:E.
    apply UpdateEmacsStraightRepo_flag in E. cbn [snd]. by rewrite E, Hflag.
  - unfold UpdateEmacsStraightRepo.
    repeat case_match; cbn [snd stdout set_repo]; try done;
      by apply prefix_app_r.
Qed.

(** X10: the worker prints exactly when it returns a positive count.  Then
    the flag is up and standard output has grown by three pieces: the line
    with the first URL of the [origin] remote as it was read before the pull
    and the count, the line with the path, and the text that [GetGitLog]
    returned for the tag set in this run on the repository the pull left;
    the count is the one [GetGitLog] left.  With a count of zero or less it
    prints nothing and leaves the flag; a fatal exit or a panic prints
    nothing either. *)
Theorem UpdateEmacsStraightRepo_report o pull p σ :
  match (UpdateEmacsStraightRepo o pull p σ).1 with
  | Returned n =>
      if (0 <? n)%Z then
        restartEmacsIsNeeded (UpdateEmacsStraightRepo o pull p σ).2 = true ∧
        ∃ r head rr url rest tag r1,
          PlainOpen σ p = Ok r ∧
          Repository_Head r = Ok head ∧
          Repository_Remote r "origin" = Ok rr ∧
          rc_URLs rr = url :: rest ∧
          CreateOrModifyGitTag r TagName head = ((Some tag, None), r1) ∧
          n = (GetGitLog o (PullGitChanges pull r1).2 tag 0).2 ∧
          stdout (UpdateEmacsStraightRepo o pull p σ).2
          = stdout σ ++
            [ Foreground_ANSIYellow o ("Fetched from " +:+ url) +:+ " "
                +:+ Color o "208" (pretty n +:+ " new commits") +:+ s_LF;
              Faint o ("local path: " +:+ p) +:+ s_LF;
              (GetGitLog o (PullGitChanges pull r1).2 tag 0).1.1 ]
      else
        stdout (UpdateEmacsStraightRepo o pull p σ).2 = stdout σ ∧
        restartEmacsIsNeeded (UpdateEmacsStraightRepo o pull p σ).2
        = restartEmacsIsNeeded σ
  | Fatal _ | Panicked _ _ =>
      stdout (UpdateEmacsStraightRepo o pull p σ).2 = stdout σ
  end.
Proof.
  unfold UpdateEmacsStraightRepo.
  destruct (PlainOpen σ p) as [r|e] eqn:Hopen; [|done].
  destruct (Repository_Head r) as [head|e] eqn:Hhead; [|done].
  destruct (Repository_Remote r "origin") as [rr|e] eqn:Hrr; [|done].
  destruct (CreateOrModifyGitTag r TagName head) as [[tag [e|]] r1] eqn:Htag;
    [done|].
  destruct (PullGitChanges pull r1) as [[changed [e|]] r2] eqn:Hpull; [done|].
  destruct tag as [tag|]; [|done].
  destruct (GetGitLog o r2 tag 0) as [[l e] n] eqn:Hlog.
  rewrite Z.gtb_ltb.
  destruct (0 <? n)%Z eqn:Hn.
  - destruct (rc_URLs rr) as [|url rest] eqn:Hurl; [done|].
    cbn [fst snd]. rewrite Hn. cbn [restartEmacsIsNeeded stdout].
    split; [done|]. exists r, head, rr, url, rest, tag, r1.
    rewrite Hpull. cbn [snd]. rewrite Hlog. by split_and!.
  - cbn [fst snd]. by rewrite Hn.
Qed.

(** ** [main]: the wait group, progress and the length of a run *)

Lemma sum_list_with_insert {A} (f : A → nat) (l : list A) : ∀ i x y,
  l !! i = Some x →
  sum_list_with f (<[i := y]> l) + f x = sum_list_with f l + f y.
Proof.
  induction l as [|a l IH]; intros [|i] x y Hi; simplify_eq/=; [lia|].
  specialize (IH i x y Hi). lia.
Qed.

Lemma main_step_steps_left o pulls s l s' :
  main_step o pulls s l s' → steps_left s' < steps_left s.
Proof.
  intros Hstep.
  destruct Hstep as [s p rest Hh Hp | s i p err σ' Hh Hg Hrun
                    | s i p e σ' Hh Hg Hrun Hne | s i e Hh Hg
                    | s i msg n Hh Hg | s Hh Hp Hw | s Hh Hp];
    unfold steps_left; rewrite Hh; cbn [halted pc goroutines]; try lia.
  - rewrite Hp, sum_list_with_app. simpl. lia.
  - pose proof (sum_list_with_insert goroutine_weight _ _ _ (Deferred e) Hg).
    simpl in *. lia.
  - pose proof (sum_list_with_insert goroutine_weight _ _ _ (Finished e) Hg).
    simpl in *. lia.
  - rewrite Hp. simpl. lia.
  - rewrite Hp. simpl. lia.
Qed.

Lemma run_steps_left o pulls ls : ∀ s s',
  run o pulls ls s = Some s' → length ls + steps_left s' ≤ steps_left s.
Proof.
  induction ls as [|l ls IH]; intros s s' Hrun; simpl in *.
  - injection Hrun as ->. lia.
  - destruct (exec o pulls s l) as [s1|] eqn:Hexec; [|done].
    apply exec_sound, main_step_steps_left in Hexec.
    apply IH in Hrun. lia.
Qed.

Lemma pending_exists gs :
  0 < pending gs →
  ∃ i, (∃ p, gs !! i = Some (Running p)) ∨ (∃ e, gs !! i = Some (Deferred e)).
Proof.
  induction gs as [|g gs IH]; simpl; [lia|]. intros Hpos.
  destruct g as [p|e|e].
  - exists 0. left. by exists p.
  - exists 0. right. by exists e.
  - destruct IH as [i Hi]; [simpl in Hpos; lia|]. by exists (S i).
Qed.

(** X11: [wg.Done()] never finds the counter at zero.  In every state of a
    run the counter is the number of goroutines launched whose [wg.Done()]
    is still to come, so the deferred call of a goroutine takes it from a
    positive value to one less. *)
Theorem WaitGroup_Done_positive o pulls d repos s i s' :
  main_reachable o pulls d repos s →
  main_step o pulls s (L_done i) s' →
  wg s = pending (goroutines s) ∧ 0 < wg s ∧ wg s = S (wg s').
Proof.
  intros Hreach Hstep.
  apply main_reachable_inv in Hreach as (Hwg & _).
  inversion Hstep as [| | |s0 i0 e Hh Hg| | |]; subst; cbn [wg].
  pose proof (pending_insert (goroutines s) i (Deferred e) (Finished e) Hg) as Hp.
  simpl in Hp. split; [done|]. lia.
Qed.

(** X12: only a goroutine inside its body can hold [main] up.  In every
    state of a run that has not ended in [log.Fatal] or a crash and in which
    [main] has not returned, either some goroutine is still in its body
    (whether it gets out is up to the pull, which has no timeout), or a step
    that is not a body step can be taken: a launch, a pending [wg.Done()],
    [wg.Wait()] going through, or the reading of the flag.  So [wg.Wait()]
    never waits for a [wg.Done()] that no goroutine is going to make. *)
Theorem main_held_only_by_body o pulls d repos s :
  main_reachable o pulls d repos s →
  halted s = None →
  pc s ≠ Exited →
  (∃ i p, goroutines s !! i = Some (Running p)) ∨
  (∃ l s', (∀ i, l ≠ L_body i) ∧ main_step o pulls s l s').
Proof.
  intros Hreach Hh Hpc.
  apply main_reachable_inv in Hreach as (Hwg & _).
  destruct (pc s) as [[|p rest]| |] eqn:Hp; [| | |done].
  - destruct (wg s) as [|k] eqn:Hk.
    { right. do 2 eexists. split; [|by apply step_wait]. done. }
    destruct (pending_exists (goroutines s)) as [i [[p Hg]|[e Hg]]]; [lia| |].
    + left. by exists i, p.
    + right. do 2 eexists. split; [|by eapply step_done]. done.
  - right. do 2 eexists. split; [|by eapply step_go]. done.
  - right. do 2 eexists. split; [|by apply step_read_flag]. done.
Qed.

(** X13: a run is finite: a schedule of [n] steps that [main] over [repos]
    can take has [n ≤ 3 * length repos + 3]: per path the launch, the body
    and [wg.Done()], then [wg.Wait()], the reading of the flag, and at most
    one crash. *)
Theorem run_length_bound o pulls d repos ls s :
  run o pulls ls (init d repos) = Some s →
  length ls ≤ 3 * length repos + 3.
Proof.
  intros Hrun. apply run_steps_left in Hrun.
  unfold steps_left at 2 in Hrun. simpl in Hrun. lia.
Qed.

Lemma WaitGroup_Done_positive_witness :
  wg state_deferred = pending (goroutines state_deferred) ∧
  0 < wg state_deferred ∧
  wg state_deferred = S (wg state_done).
Proof.
  apply (WaitGroup_Done_positive plain pulls1 (disk process0) [pkg_path]
           state_deferred 0 state_done).
  - apply (run_reachable plain pulls1 (disk process0) [pkg_path]
             [L_go pkg_path; L_body 0] (init (disk process0) [pkg_path]));
      [apply main_reachable_init|vm_compute; reflexivity].
  - apply exec_sound. vm_compute; reflexivity.
Defined.

Lemma main_held_only_by_body_witness :
  (∃ i p, goroutines state_deferred !! i = Some (Running p)) ∨
  (∃ l s', (∀ i, l ≠ L_body i) ∧ main_step plain pulls1 state_deferred l s').
Proof.
  apply (main_held_only_by_body plain pulls1 (disk process0) [pkg_path]).
  - apply (run_reachable plain pulls1 (disk process0) [pkg_path]
             [L_go pkg_path; L_body 0] (init (disk process0) [pkg_path]));
      [apply main_reachable_init|vm_compute; reflexivity].
  - vm_compute; reflexivity.
  - vm_compute; discriminate.
Defined.

Lemma run_length_bound_witness :
  run plain pulls1 schedule1 (init (disk process0) [pkg_path]) = Some state1 ∧
  length schedule1 ≤ 3 * length [pkg_path] + 3.
Proof.
  assert (H : run plain pulls1 schedule1 (init (disk process0) [pkg_path])
              = Some state1) by (vm_compute; reflexivity).
  split; [exact H|]. exact (run_length_bound _ _ _ _ _ _ H).
Defined.

(** ** [main]: one goroutine per path, and only the listed paths *)

Lemma drop_cons_inv {A} (l : list A) n x t :
  drop n l = x :: t → l !! n = Some x ∧ t = drop (S n) l.
Proof.
  intros Hd.
  assert (Hx : l !! n = Some x).
  { rewrite <-(Nat.add_0_r n), <-lookup_drop, Hd. done. }
  split; [done|]. rewrite (drop_S _ _ _ Hx) in Hd. by injection Hd.
Qed.

Lemma launch_inv_init d repos : launch_inv d repos (init d repos).
Proof.
  unfold launch_inv; simpl. split_and!; [done| |lia|done].
  by intros rest [= <-].
Qed.

Lemma launch_inv_step o pulls d repos s l s' :
  launch_inv d repos s → main_step o pulls s l s' → launch_inv d repos s'.
Proof.
  intros (Hrun & Hrest & Hlen & Hdisk) Hstep.
  assert (Hbody : ∀ i p q, goroutines s !! i = Some (Running p) → q ∉ repos →
            disk (UpdateEmacsStraightRepo o (pulls p) p (proc s)).2 !! q = d !! q).
  { intros i p q Hg Hq. rewrite UpdateEmacsStraightRepo_others; [by apply Hdisk|].
    intros ->. apply Hq. eapply list_elem_of_lookup_2. by apply Hrun. }
  destruct Hstep as [s p rest Hh Hp | s i p err σ' Hh Hg Hbd
                    | s i p e σ' Hh Hg Hbd Hne | s i e Hh Hg
                    | s i msg n Hh Hg | s Hh Hp Hw | s Hh Hp];
    unfold launch_inv; cbn [goroutines pc proc].
  - destruct (drop_cons_inv _ _ _ _ (eq_sym (Hrest _ Hp))) as [Hn Ht].
    rewrite length_app. simpl. rewrite Nat.add_1_r. split_and!.
    + intros i q [[_ Hi]|[-> [= <-]]]%lookup_snoc_Some; [by apply Hrun|done].
    + by intros rest' [= <-].
    + by apply lookup_lt_Some in Hn.
    + done.
  - split_and!; try done.
    intros q Hq. specialize (Hbody i p q Hg Hq). by rewrite Hbd in Hbody.
  - rewrite length_insert. split_and!; try done.
    + intros j q [(_ & [=] & _)|[_ Hj]]%list_lookup_insert_Some. by apply Hrun.
    + intros q Hq. specialize (Hbody i p q Hg Hq). by rewrite Hbd in Hbody.
  - rewrite length_insert. split_and!; try done.
    intros j q [(_ & [=] & _)|[_ Hj]]%list_lookup_insert_Some. by apply Hrun.
  - done.
  - by split_and!.
  - by split_and!.
Qed.

Lemma main_reachable_launch o pulls d repos s :
  main_reachable o pulls d repos s → launch_inv d repos s.
Proof.
  induction 1 as [|s l s' _ IH Hstep]; [apply launch_inv_init|].
  by eapply launch_inv_step.
Qed.

(** X14: one goroutine per path, in the lister's order.  In every state of a
    run the goroutine launched [i]-th works on the [i]-th path of [repos],
    the paths still to launch are the rest of [repos] after those launched,
    and there are never more goroutines than paths. *)
Theorem main_goroutine_paths o pulls d repos s :
  main_reachable o pulls d repos s →
  (∀ i p, goroutines s !! i = Some (Running p) → repos !! i = Some p) ∧
  (∀ rest, pc s = Spawning rest → rest = drop (length (goroutines s)) repos) ∧
  length (goroutines s) ≤ length repos.
Proof.
  intros (H1 & H2 & H3 & _)%main_reachable_launch. by split_and!.
Qed.

Lemma main_goroutine_paths_witness :
  (∀ i p, goroutines state_deferred !! i = Some (Running p) →
          [pkg_path] !! i = Some p) ∧
  (∀ rest, pc state_deferred = Spawning rest →
           rest = drop (length (goroutines state_deferred)) [pkg_path]) ∧
  length (goroutines state_deferred) ≤ length [pkg_path].
Proof.
  apply (main_goroutine_paths plain pulls1 (disk process0)).
  apply (run_reachable plain pulls1 (disk process0) [pkg_path]
           [L_go pkg_path; L_body 0] (init (disk process0) [pkg_path]));
    [apply main_reachable_init|vm_compute; reflexivity].
Defined.

(** X15: a run touches only the repositories the lister returned: in every
    state of a run over [repos], a path that is not in [repos] holds on disk
    what it held at the start.  With no paths at all the disk is never
    written. *)
Theorem main_only_listed_repos o pulls d repos s :
  main_reachable o pulls d repos s →
  (∀ q, q ∉ repos → disk (proc s) !! q = d !! q) ∧
  (repos = [] → disk (proc s) = d).
Proof.
  intros (_ & _ & _ & Hdisk)%main_reachable_launch. split; [done|].
  intros ->. apply map_eq. intros q. apply Hdisk, not_elem_of_nil.
Qed.

Lemma main_only_listed_repos_witness :
  (∀ q, q ∉ [pkg_path] → disk (proc state_two) !! q = disk_two !! q) ∧
  ([pkg_path] = [] → disk (proc state_two) = disk_two).
Proof.
  apply (main_only_listed_repos plain pulls1 disk_two [pkg_path]).
  apply (run_reachable plain pulls1 disk_two [pkg_path]
           [L_go pkg_path; L_body 0] (init disk_two [pkg_path]));
    [apply main_reachable_init|vm_compute; reflexivity].
Defined.

(** ** [restartEmacs] *)

Lemma Split_not_nil s sep : Split s sep ≠ [].
Proof.
  destruct s as [|a s]; simpl; [done|].
  destruct (decide (a = sep)); [done|]. by destruct (Split s sep).
Qed.

Lemma runCommand_Split o reset cmd_Run before v out :
  ∃ out', runCommand o reset cmd_Run before (Split v SPACE) out
          = (Cmd_return (cmd_Run before (Split v SPACE)).2, out').
Proof.
  unfold runCommand. pose proof (Split_not_nil v SPACE) as Hne.
  destruct (Split v SPACE) as [|a args]; [done|].
  destruct (cmd_Run before (a :: args)) as [chunks err]. by eexists.
Qed.

(** X16: [restartEmacs] runs its commands in order and stops at the first
    that fails.  If the loop over [cmds] ends normally, every command was
    started, in order, and each returned no error.  If it ends in
    [log.Fatal], the commands started are those up to and including the
    first whose run returned an error, which is the error logged; no later
    command is started.  It never panics: [strings.Split] gives
    [runCommand] at least one string. *)
Theorem restartEmacs_range_first_failure o reset cmd_Run cmds :
  ∀ started out e st out',
  restartEmacs_range o reset cmd_Run cmds started out = (e, (st, out')) →
  match e with
  | Restart_done =>
      st = started ++ ((λ v, Split v SPACE) <$> cmds) ∧
      ∀ pre v post, cmds = pre ++ v :: post →
        (cmd_Run (started ++ ((λ v, Split v SPACE) <$> pre)) (Split v SPACE)).2
        = None
  | Restart_fatal err =>
      ∃ pre v post, cmds = pre ++ v :: post ∧
        st = started ++ ((λ v, Split v SPACE) <$> pre) ++ [Split v SPACE] ∧
        (cmd_Run (started ++ ((λ v, Split v SPACE) <$> pre)) (Split v SPACE)).2
        = Some err ∧
        ∀ pre' v' post', pre = pre' ++ v' :: post' →
          (cmd_Run (started ++ ((λ v, Split v SPACE) <$> pre')) (Split v' SPACE)).2
          = None
  | Restart_panic _ => False
  end.
Proof.
  induction cmds as [|v rest IH]; intros started out e st out'; simpl.
  { intros [= <- <- <-]. rewrite app_nil_r. split; [done|].
    intros pre v post Hnil. by destruct pre. }
  destruct (runCommand_Split o reset cmd_Run started v out) as [out1 ->].
  destruct (cmd_Run started (Split v SPACE)).2 as [err|] eqn:Hrun.
  { intros [= <- <- <-]. exists [], v, rest. simpl. rewrite app_nil_r.
    split_and!; try done. intros pre' v' post' Hnil. by destruct pre'. }
  intros Hrest. specialize (IH _ _ _ _ _ Hrest).
  destruct e as [err|msg|]; [| done |].
  - destruct IH as (pre & v0 & post & -> & -> & Herr & Hpre).
    exists (v :: pre), v0, post. simpl.
    rewrite <-!app_assoc in *. simpl in *. split_and!; try done.
    intros [|w pre'] v' post' Heq; simplify_eq/=.
    + by rewrite app_nil_r.
    + specialize (Hpre _ _ _ eq_refl).
      by rewrite <-app_assoc in Hpre.
  - destruct IH as [-> Hall]. rewrite <-app_assoc. simpl. split; [done|].
    intros [|w pre] v' post Heq; simplify_eq/=.
    + by rewrite app_nil_r.
    + specialize (Hall _ _ _ eq_refl).
      by rewrite <-app_assoc in Hall.
Qed.

Lemma restartEmacs_range_first_failure_witness :
  restartEmacs plain "" no_server []
  = (Restart_fatal (ErrOther "exit status 1"),
     ([["emacsclient"; "-e"; "(kill-emacs)"]],
      ["emacsclient: can't find socket"; ""])) ∧
  ∃ pre v post, commands = pre ++ v :: post ∧
    [["emacsclient"; "-e"; "(kill-emacs)"]]
    = [] ++ ((λ v, Split v SPACE) <$> pre) ++ [Split v SPACE] ∧
    (no_server ([] ++ ((λ v, Split v SPACE) <$> pre)) (Split v SPACE)).2
    = Some (ErrOther "exit status 1") ∧
    ∀ pre' v' post', pre = pre' ++ v' :: post' →
      (no_server ([] ++ ((λ v, Split v SPACE) <$> pre')) (Split v' SPACE)).2
      = None.
Proof.
  assert (H : restartEmacs plain "" no_server []
              = (Restart_fatal (ErrOther "exit status 1"),
                 ([["emacsclient"; "-e"; "(kill-emacs)"]],
                  ["emacsclient: can't find socket"; ""])))
    by (vm_compute; reflexivity).
  split; [exact H|].
  exact (restartEmacs_range_first_failure plain "" no_server commands
           [] [] _ _ _ H).
Defined.

Lemma Join_cons w ws sep :
  ws ≠ [] → Join (w :: ws) sep = w +:+ sep +:+ Join ws sep.
Proof. by destruct ws. Qed.

Lemma Split_Join s sep : Join (Split s sep) (String sep "") = s.
Proof.
  induction s as [|a s IH]; simpl; [done|].
  pose proof (Split_not_nil s sep) as Hne.
  destruct (decide (a = sep)) as [->|Ha].
  - rewrite Join_cons by done. simpl. by rewrite IH.
  - destruct (Split s sep) as [|w ws]; [done|].
    destruct ws as [|w' ws]; simpl in *; by rewrite IH.
Qed.

Lemma Split_no_sep s sep : ∀ w i, w ∈ Split s sep → String.get i w ≠ Some sep.
Proof.
  induction s as [|a s IH]; simpl; intros w i.
  { intros ->%list_elem_of_singleton. by destruct i. }
  pose proof (Split_not_nil s sep) as Hne.
  destruct (decide (a = sep)) as [->|Ha].
  - intros [->|Hw]%elem_of_cons; [by destruct i|by apply IH].
  - destruct (Split s sep) as [|w0 ws]; [done|].
    intros [->|Hw]%elem_of_cons.
    + destruct i as [|i]; simpl; [congruence|]. apply IH. by left.
    + apply IH. by right.
Qed.

(** X17: what [restartEmacs] starts are its command lines cut at the
    spaces.  Every argument vector started by the loop over [cmds] comes
    from one of [cmds]; it is not empty, none of its strings holds a space,
    and joined by single spaces it is the command line again. *)
Theorem restartEmacs_range_argv o reset cmd_Run cmds :
  ∀ started out e st out',
  restartEmacs_range o reset cmd_Run cmds started out = (e, (st, out')) →
  ∀ argv, argv ∈ st →
    argv ∈ started ∨
    ∃ v, v ∈ cmds ∧ argv = Split v SPACE ∧
         Join argv (String SPACE "") = v ∧
         argv ≠ [] ∧
         ∀ w i, w ∈ argv → String.get i w ≠ Some SPACE.
Proof.
  induction cmds as [|v rest IH]; intros started out e st out'; simpl.
  { intros [= <- <- <-] argv Hin. by left. }
  assert (Hv : ∀ argv, argv ∈ started ++ [Split v SPACE] →
            argv ∈ started ∨
            ∃ v', v' ∈ v :: rest ∧ argv = Split v' SPACE ∧
                  Join argv (String SPACE "") = v' ∧ argv ≠ [] ∧
                  ∀ w i, w ∈ argv → String.get i w ≠ Some SPACE).
  { intros argv [Hin| ->%list_elem_of_singleton]%elem_of_app; [by left|].
    right. exists v. split_and!; [by left|done|apply Split_Join
                                 |apply Split_not_nil|].
    intros w i. apply Split_no_sep. }
  destruct (runCommand_Split o reset cmd_Run started v out) as [out1 ->].
  destruct (cmd_Run started (Split v SPACE)).2 as [err|].
  { intros [= <- <- <-]. exact Hv. }
  intros Hrest argv Hin.
  destruct (IH _ _ _ _ _ Hrest argv Hin) as [Hold|(v' & Hv' & Hrest')].
  - by apply Hv.
  - right. exists v'. split; [by right|done].
Qed.

Lemma restartEmacs_range_argv_witness :
  restartEmacs plain "" no_server []
  = (Restart_fatal (ErrOther "exit status 1"),
     ([["emacsclient"; "-e"; "(kill-emacs)"]],
      ["emacsclient: can't find socket"; ""])) ∧
  ∀ argv, argv ∈ [["emacsclient"; "-e"; "(kill-emacs)"]] →
    argv ∈ [] ∨
    ∃ v, v ∈ commands ∧ argv = Split v SPACE ∧
         Join argv (String SPACE "") = v ∧
         argv ≠ [] ∧
         ∀ w i, w ∈ argv → String.get i w ≠ Some SPACE.
Proof.
  assert (H : restartEmacs plain "" no_server []
              = (Restart_fatal (ErrOther "exit status 1"),
                 ([["emacsclient"; "-e"; "(kill-emacs)"]],
                  ["emacsclient: can't find socket"; ""])))
    by (vm_compute; reflexivity).
  split; [exact H|].
  exact (restartEmacs_range_argv plain "" no_server commands [] [] _ _ _ H).
Defined.

(** ** The worker: counting what the pull brought *)

(** X18: one run counts the commits the pull brought.  The marker is set to
    the head found before the pull, so when the run gets as far as the log,
    the repository after the pull has its history complete and the
    committer clocks follow the history (nothing at or below the old head is
    a second or more later than it, everything else below the new head is),
    the count with which the worker leaves its body is the number of stored
    commits reachable from the new head and not from the old one, each
    handled once; the flag is raised exactly when there is such a commit,
    and the repository on disk is the one the pull left. *)
Theorem UpdateEmacsStraightRepo_counts_new_commits
    o pull p σ r head tag r1 head2 m :
  PlainOpen σ p = Ok r →
  Repository_Head r = Ok head →
  is_Some (remotes r !! "origin") →
  worktree r = true →
  CreateOrModifyGitTag r TagName head = ((Some tag, None), r1) →
  Repository_Head (pull r1).2 = Ok head2 →
  Repository_CommitObject (pull r1).2 (Reference_Hash head) = Ok m →
  history_complete (objects (pull r1).2) (Reference_Hash head2) →
  (Z.of_nat (size (objects (pull r1).2)) < 2 ^ 63)%Z →
  (∀ c, stored (objects (pull r1).2) c →
        reachable (objects (pull r1).2) (Reference_Hash head) (c_Hash c) →
        (unix_nano (sig_When (c_Committer c))
           < unix_nano (sig_When (c_Committer m)) + 1000000000)%Z) →
  (∀ c, stored (objects (pull r1).2) c →
        reachable (objects (pull r1).2) (Reference_Hash head2) (c_Hash c) →
        ¬ reachable (objects (pull r1).2) (Reference_Hash head) (c_Hash c) →
        (unix_nano (sig_When (c_Committer m)) + 1000000000
           ≤ unix_nano (sig_When (c_Committer c)))%Z) →
  ∃ new : list Commit,
    NoDup (hashes new) ∧
    (∀ c, c ∈ new ↔
          stored (objects (pull r1).2) c ∧
          reachable (objects (pull r1).2) (Reference_Hash head2) (c_Hash c) ∧
          ¬ reachable (objects (pull r1).2) (Reference_Hash head) (c_Hash c)) ∧
    exit_count (UpdateEmacsStraightRepo o pull p σ).1
    = Some (Z.of_nat (length new)) ∧
    restartEmacsIsNeeded (UpdateEmacsStraightRepo o pull p σ).2
    = restartEmacsIsNeeded σ || bool_decide (new ≠ []) ∧
    disk (UpdateEmacsStraightRepo o pull p σ).2 !! p = Some (pull r1).2.
Proof.
  intros Hopen Hhead [rr Hrr] Hw Htag Hhead2 Hm Hall Hsize Hold Hnew.
  destruct (Repository_Log_new_commits _ _ head2 m Hhead2 Hall Hold Hnew)
    as (new & Hlog & Hnd & Hlen & Hcs).
  exists new. split; [done|]. split; [done|].
  assert (Htaghash : Reference_Hash tag = Reference_Hash head).
  { pose proof Htag as E.
    apply CreateOrModifyGitTag_effect in E as [[_ [=]]|(k & _ & [= ->] & _)].
    done. }
  assert (Hlogtext : GetGitLog o (pull r1).2 tag 0
                     = ((render o new, None), Z.of_nat (length new))).
  { unfold GetGitLog. rewrite Htaghash, Hm, Hlog. cbn [fst snd].
    rewrite ForEach_GetGitLog_f by lia. by rewrite Z.add_0_l. }
  assert (Hflag : (Z.of_nat (length new) >? 0)%Z = bool_decide (new ≠ [])).
  { destruct new; [done|]. rewrite bool_decide_true by done.
    simpl length. apply Z.gtb_lt. lia. }
  unfold UpdateEmacsStraightRepo.
  rewrite Hopen, Hhead. unfold Repository_Remote. rewrite Hrr, Htag.
  rewrite PullGitChanges_worktree
    by (by rewrite (CreateOrModifyGitTag_worktree _ _ _ _ _ Htag)).
  rewrite Hlogtext, Hflag.
  destruct (bool_decide (new ≠ [])).
  - rewrite orb_true_r.
    destruct (rc_URLs rr); cbn [fst snd exit_count restartEmacsIsNeeded disk];
      by rewrite lookup_insert_eq.
  - rewrite orb_false_r.
    cbn [fst snd exit_count restartEmacsIsNeeded disk set_repo].
    by rewrite lookup_insert_eq.
Qed.

Lemma UpdateEmacsStraightRepo_counts_new_commits_witness :
  ∃ new : list Commit,
    NoDup (hashes new) ∧
    (∀ c, c ∈ new ↔
          stored history1 c ∧ reachable history1 2%N (c_Hash c) ∧
          ¬ reachable history1 1%N (c_Hash c)) ∧
    exit_count (UpdateEmacsStraightRepo plain pull_second pkg_path process0).1
    = Some (Z.of_nat (length new)) ∧
    restartEmacsIsNeeded
      (UpdateEmacsStraightRepo plain pull_second pkg_path process0).2
    = false || bool_decide (new ≠ []) ∧
    disk (UpdateEmacsStraightRepo plain pull_second pkg_path process0).2
      !! pkg_path = Some repo0_second.
Proof.
  apply (UpdateEmacsStraightRepo_counts_new_commits plain pull_second pkg_path
           process0 repo0 (NewHashReference "refs/heads/main" 1%N)
           (NewHashReference "refs/tags/Updated.At" 1%N)
           (moved repo0 "refs/tags/Updated.At" 1%N)
           (NewHashReference "refs/heads/main" 2%N)
           (decode 1%N (commit_at 100 "first" []))).
  - reflexivity.
  - vm_compute; reflexivity.
  - by eexists.
  - reflexivity.
  - reflexivity.
  - vm_compute; reflexivity.
  - reflexivity.
  - exact history1_complete.
  - vm_compute; reflexivity.
  - intros c Hst Hr. apply reachable_history1_root in Hr.
    apply stored_history1 in Hst as [->| ->]; [reflexivity|discriminate Hr].
  - intros c Hst _ Hn.
    apply stored_history1 in Hst as [->| ->]; [|by cbv].
    destruct Hn. apply rtc_refl.
Defined.
